(** * Arc Booster: the tweak application and rollback engine

    A shallow embedding of the engine of [arc_booster.py] -- the tweak
    registry, the state store ([load_applied_tweaks], [save_applied_tweaks])
    and the two batch workers ([_apply_worker], [_restore_worker]) with
    their entry points ([_on_apply], [_on_restore]) -- and the properties
    of the design document that concern it.

    The widgets of the Tk user interface are not modelled; what the engine
    does to them (log lines, message boxes, scheduled callbacks) is
    recorded as a trace of events. *)

From stdpp Require Import base option list gmap sets fin_sets strings pretty sorting.

(** ** Tweak registry *)

(** One entry of the [TWEAKS] table.  [restore_cmd = None] marks a
    one-way tweak. *)
Record tweak := Tweak {
  id : string;
  name : string;
  description : string;
  category : string;
  admin : bool;
  apply_cmd : string;
  restore_cmd : option string;
}.

Definition CATEGORIES : list string := ["System"; "Network"; "Graphics"].

Definition APP_NAME : string := "Arc Booster".

(** ** Python values and exceptions *)

(** The exceptions the modelled code can meet. *)
Inductive exn :=
  | OSError
  | JSONDecodeError
  | UnicodeDecodeError
  | AttributeError
  | TypeError
  | KeyError.

Inductive result (A : Type) :=
  | Returns (a : A)
  | Raises (e : exn).
Arguments Returns {A} a.
Arguments Raises {A} e.

Definition result_bind {A B} (r : result A) (k : A → result B) : result B :=
  match r with
  | Returns a => k a
  | Raises e => Raises e
  end.

Definition from_result {A} (dflt : A) (r : result A) : A :=
  match r with
  | Returns a => a
  | Raises _ => dflt
  end.

Fixpoint result_mapM {A B} (f : A → result B) (l : list A) : result (list B) :=
  match l with
  | [] => Returns []
  | x :: l' =>
      result_bind (f x) (λ y,
      result_bind (result_mapM f l') (λ ys, Returns (y :: ys)))
  end.

(** What [json.load] produces.  Number literals are modelled at the
    integers; a [JDict] lists the items of the resulting dictionary. *)
#[warnings="-register-all"]
Inductive json :=
  | JNull
  | JBool (b : bool)
  | JInt (n : Z)
  | JStr (s : string)
  | JList (items : list json)
  | JDict (items : list (string * json)).

(** The elements a Python [set] built from such values can hold, up to
    Python equality: [True == 1] and [False == 0] are one element each. *)
Inductive pykey :=
  | KNone
  | KNum (n : Z)
  | KStr (s : string).

Global Instance pykey_eq_dec : EqDecision pykey.
Proof. solve_decision. Defined.

Global Instance pykey_countable : Countable pykey.
Proof.
  refine (inj_countable'
    (λ k, match k with
          | KNone => inl ()
          | KNum n => inr (inl n)
          | KStr s => inr (inr s)
          end)
    (λ x, match x with
          | inl _ => KNone
          | inr (inl n) => KNum n
          | inr (inr s) => KStr s
          end) _).
  by intros [].
Defined.

(** [hash(x)] for a set element: lists and dictionaries are unhashable. *)
Definition hashable (v : json) : result pykey :=
  match v with
  | JNull => Returns KNone
  | JBool b => Returns (KNum (if b then 1 else 0))
  | JInt n => Returns (KNum n)
  | JStr s => Returns (KStr s)
  | JList _ | JDict _ => Raises TypeError
  end.

(** A string is held as the bytes of its UTF-8 text: a character is a
    lead byte with the continuation bytes ([10xxxxxx]) that follow it. *)
Definition is_continuation (c : Ascii.ascii) : bool :=
  let n := Ascii.N_of_ascii c in (128 <=? n)%N && (n <? 192)%N.

(** [chars_go cur s]: the characters of [s], after the bytes [cur] of the
    character being read. *)
Fixpoint chars_go (cur : string) (s : string) : list string :=
  match s with
  | EmptyString => match cur with EmptyString => [] | _ => [cur] end
  | String c s' =>
      if is_continuation c then chars_go (cur +:+ String c EmptyString) s'
      else match cur with
           | EmptyString => chars_go (String c EmptyString) s'
           | _ => cur :: chars_go (String c EmptyString) s'
           end
  end.

(** The characters of a string, each as a one-character string. *)
Definition chars (s : string) : list string := chars_go "" s.

(** [set(v)]: iterates a list, the characters of a string or the keys of a
    dictionary; anything else is not iterable. *)
Definition py_set (v : json) : result (gset pykey) :=
  match v with
  | JList items =>
      result_bind (result_mapM hashable items) (λ ks, Returns (list_to_set ks))
  | JStr s => Returns (list_to_set (KStr <$> chars s))
  | JDict items => Returns (list_to_set (KStr <$> items.*1))
  | JNull | JBool _ | JInt _ => Raises TypeError
  end.

Fixpoint assoc (key : string) (items : list (string * json)) : option json :=
  match items with
  | [] => None
  | (k, v) :: items' => if decide (k = key) then Some v else assoc key items'
  end.

(** [data.get(key, default)]: only a dictionary has the method. *)
Definition py_get (data : json) (key : string) (dflt : json) : result json :=
  match data with
  | JDict items => Returns (default dflt (assoc key items))
  | JNull | JBool _ | JInt _ | JStr _ | JList _ => Raises AttributeError
  end.

(** ** State store *)

(** What reading [BACKUP_FILE] as UTF-8 text and handing it to [json.load]
    comes to. *)
Inductive file_content :=
  | NotUtf8
  | NotJson
  | Json (data : json).

(** The states of [BACKUP_FILE] on disk.  [Unreadable] is a file that
    exists and whose opening or reading fails with an [OSError]. *)
Inductive disk :=
  | Missing
  | Unreadable
  | File (content : file_content).

Definition exists_ (d : disk) : bool :=
  match d with
  | Missing => false
  | Unreadable | File _ => true
  end.

Definition open_read (d : disk) : result file_content :=
  match d with
  | File c => Returns c
  | Missing | Unreadable => Raises OSError
  end.

Definition json_load (c : file_content) : result json :=
  match c with
  | NotUtf8 => Raises UnicodeDecodeError
  | NotJson => Raises JSONDecodeError
  | Json data => Returns data
  end.

(** The [try] block of [load_applied_tweaks]; [None] is falling out of the
    [if] without a [return]. *)
Definition load_try (d : disk) : result (option (gset pykey)) :=
  if exists_ d then
    result_bind (open_read d) (λ fh,
    result_bind (json_load fh) (λ data,
    result_bind (py_get data "applied" (JList [])) (λ ids,
    result_bind (py_set ids) (λ s, Returns (Some s)))))
  else Returns None.

(** [load_applied_tweaks()]: [except (json.JSONDecodeError, OSError): pass],
    then [return set()]. *)
Definition load_applied_tweaks (d : disk) : result (gset pykey) :=
  match load_try d with
  | Returns (Some s) => Returns s
  | Returns None => Returns ∅
  | Raises JSONDecodeError | Raises OSError => Returns ∅
  | Raises e => Raises e
  end.

(** [sorted(applied)] on the strings of a set, in whatever order the set
    enumerates them. *)
Definition sorted (l : list string) : list string := merge_sort String.le l.

(** The dictionary [save_applied_tweaks] hands to [json.dump]. *)
Definition record (applied : gset string) (now : string) : json :=
  JDict [("applied", JList (JStr <$> sorted (elements applied)));
         ("last_modified", JStr now)].

(** How the operating system treats one attempt to write the file. *)
Inductive io_fault :=
  | NoFault
  | MkdirFails
  | OpenFails
  | WriteFails.

(** [save_applied_tweaks(applied)], with [now] the timestamp and [f] the
    fate of the write.  A failing [mkdir] or [open] leaves the file as it
    was; a write that fails half-way leaves a truncated text.  In every
    case the [OSError] is passed over and [None] is returned. *)
Definition save_applied_tweaks
    (applied : gset string) (now : string) (f : io_fault) (d : disk) : unit * disk :=
  match f with
  | MkdirFails | OpenFails => (tt, d)
  | WriteFails => (tt, File NotJson)
  | NoFault => (tt, File (Json (record applied now)))
  end.

(** ** The world of the engine *)

Inductive tag := TInfo | TOk | TErr | TWarn | THeading.

(** What the engine does to its surroundings, in the order it does it.
    [Log] is [_log_write] (without the clock prefix of the line), [Exec] a
    call of [run_powershell], [Save] a call of [save_applied_tweaks],
    [SetBusy b] is [self.after(0, self._set_busy, b)]. *)
Inductive event :=
  | Log (message : string) (t : tag)
  | Exec (command : string)
  | Save (applied : gset string)
  | SetBusy (busy : bool)
  | ShowInfo (text : string)
  | ShowWarning (text : string)
  | AskYesNo (text : string)
  | ThreadStart.

(** The application object together with what surrounds it: the machine
    the commands act on, the file on disk, the fate of the coming writes
    and the user's coming answers to confirmation dialogs.  [_applied] is
    taken at sets of tweak-id strings, which is all the engine itself ever
    adds to it or writes to the file. *)
Record state (Sys : Type) := State {
  _admin : bool;
  _applied : gset string;
  _vars : gmap string bool;
  machine : Sys;
  backup_file : disk;
  io : list io_fault;
  answers : list bool;
}.
Arguments State {Sys}.
Arguments _admin {Sys}.
Arguments _applied {Sys}.
Arguments _vars {Sys}.
Arguments machine {Sys}.
Arguments backup_file {Sys}.
Arguments io {Sys}.
Arguments answers {Sys}.

Definition set_applied {Sys} (a : gset string) (s : state Sys) : state Sys :=
  State (_admin s) a (_vars s) (machine s) (backup_file s) (io s) (answers s).
Definition set_machine {Sys} (m : Sys) (s : state Sys) : state Sys :=
  State (_admin s) (_applied s) (_vars s) m (backup_file s) (io s) (answers s).
Definition set_disk {Sys} (d : disk) (fs : list io_fault) (s : state Sys) : state Sys :=
  State (_admin s) (_applied s) (_vars s) (machine s) d fs (answers s).
Definition set_answers {Sys} (l : list bool) (s : state Sys) : state Sys :=
  State (_admin s) (_applied s) (_vars s) (machine s) (backup_file s) (io s) l.

(** Computations of the engine: they read and change the state, may raise,
    and leave a trace. *)
Definition M (Sys A : Type) : Type := state Sys → result A * state Sys * list event.

Definition ret {Sys A} (a : A) : M Sys A := λ s, (Returns a, s, []).

Definition bind {Sys A B} (m : M Sys A) (k : A → M Sys B) : M Sys B := λ s,
  match m s with
  | (Returns a, s1, tr1) => let '(r, s2, tr2) := k a s1 in (r, s2, tr1 ++ tr2)
  | (Raises e, s1, tr1) => (Raises e, s1, tr1)
  end.

Global Instance M_ret {Sys} : MRet (M Sys) := λ A, ret.
Global Instance M_bind {Sys} : MBind (M Sys) := λ A B k m, bind m k.

Definition raise {Sys A} (e : exn) : M Sys A := λ s, (Raises e, s, []).
Definition lift {Sys A} (r : result A) : M Sys A := λ s, (r, s, []).
Definition gets {Sys A} (f : state Sys → A) : M Sys A := λ s, (Returns (f s), s, []).
Definition modify {Sys} (f : state Sys → state Sys) : M Sys unit := λ s, (Returns tt, f s, []).
Definition emit {Sys} (e : event) : M Sys unit := λ s, (Returns tt, s, [e]).

(** [for x in l: acc = body(x, acc)] *)
Fixpoint for_each {Sys A B} (l : list A) (body : A → B → M Sys B) (acc : B) : M Sys B :=
  match l with
  | [] => ret acc
  | x :: l' => acc' ← body x acc; for_each l' body acc'
  end.

(** [threading.Thread(target=m, daemon=True).start()]: the worker runs on a
    thread of its own, one at a time under [self._lock]; an exception ends
    that thread and does not reach the caller. *)
Definition spawn {Sys} (m : M Sys unit) : M Sys unit := λ s,
  let '(_, s', tr) := m s in (Returns tt, s', ThreadStart :: tr).

(** [messagebox.askyesno]: the user's next answer ([False] when none is
    left). *)
Definition askyesno {Sys} (text : string) : M Sys bool := λ s,
  (Returns (default false (head (answers s))), set_answers (tail (answers s)) s,
   [AskYesNo text]).

Definition _log_write {Sys} (message : string) (t : tag) : M Sys unit :=
  emit (Log message t).
Definition _log_info {Sys} (msg : string) : M Sys unit := _log_write msg TInfo.
Definition _log_ok {Sys} (msg : string) : M Sys unit := _log_write ("✔  " +:+ msg) TOk.
Definition _log_err {Sys} (msg : string) : M Sys unit := _log_write ("✘  " +:+ msg) TErr.
Definition _log_warn {Sys} (msg : string) : M Sys unit := _log_write ("⚠  " +:+ msg) TWarn.
Definition _log_heading {Sys} (msg : string) : M Sys unit := _log_write msg THeading.

(** [sep.join(parts)] *)
Fixpoint join (sep : string) (parts : list string) : string :=
  match parts with
  | [] => ""
  | [p] => p
  | p :: ps => p +:+ sep +:+ join sep ps
  end.

Definition nl : string := String (Ascii.ascii_of_nat 10) "".

(** [x or y] on strings *)
Definition or_ (x y : string) : string := if decide (x = "") then y else x.

(** [[t for t in TWEAKS if self._vars[t["id"]].get()]] *)
Fixpoint select (vars : gmap string bool) (tweaks : list tweak) : result (list tweak) :=
  match tweaks with
  | [] => Returns []
  | t :: ts =>
      match (vars !! id t : option bool) with
      | None => Raises KeyError
      | Some b => result_bind (select vars ts) (λ r, Returns (if b then t :: r else r))
      end
  end.

(** The two lists [_on_restore] computes from the registry. *)
Definition restorable (applied : gset string) (TWEAKS : list tweak) : list tweak :=
  filter (λ t : tweak, id t ∈ applied ∧ restore_cmd t ≠ None) TWEAKS.
Definition irreversible (applied : gset string) (TWEAKS : list tweak) : list tweak :=
  filter (λ t : tweak, id t ∈ applied ∧ restore_cmd t = None) TWEAKS.

(** Outcome of one tweak in a batch, as the design document names them. *)
Inductive outcome :=
  | Applied
  | Restored
  | SkippedPrivilege
  | Failed (message : string).

Global Instance outcome_eq_dec : EqDecision outcome.
Proof. solve_decision. Defined.

(** ** A small machine for concrete runs

    Its state is the list of commands run so far; a command succeeds
    unless it is ["exit 1"], which fails with the message ["denied"], or
    ["exit 2"], which fails without any output. *)
Module Scenario.
Definition Sys : Type := list string.

Definition run_powershell (command : string) (m : Sys) : bool * string * Sys :=
  if decide (command = "exit 1") then (false, "denied", m ++ [command])
  else if decide (command = "exit 2") then (false, "", m ++ [command])
  else (true, "", m ++ [command]).

Definition now (m : Sys) : string := "2024-05-01T12:00:00".

(** The three tweaks of the scenario of the design document: [A] needs
    no privilege and is reversible, [B] needs privilege and is
    reversible, [C] needs no privilege and is one-way. *)
Definition A : tweak := Tweak "A" "Tweak A" "" "System" false "apply A" (Some "restore A").
Definition B : tweak := Tweak "B" "Tweak B" "" "System" true "apply B" (Some "restore B").
Definition C : tweak := Tweak "C" "Tweak C" "" "Graphics" false "apply C" None.
(** A tweak whose commands fail. *)
Definition D : tweak := Tweak "D" "Tweak D" "" "Network" false "exit 1" (Some "exit 1").

Definition registry : list tweak := [A; B; C; D].

(** The check boxes of the registry, none of them ticked. *)
Definition unchecked : gmap string bool :=
  list_to_map [("A", false); ("B", false); ("C", false); ("D", false)].

Definition start (is_admin : bool) (applied : gset string) (vars : gmap string bool)
    (fs : list io_fault) : state Sys :=
  State is_admin applied vars [] Missing fs [true].
End Scenario.

(** ** The engine *)

Section engine.
Context {Sys : Type}.
(** [run_powershell(command)] on a machine: success flag, output and the
    machine afterwards.  It never raises on a command string. *)
Context (run_powershell : string → Sys → bool * string * Sys).
(** [datetime.now().isoformat(timespec="seconds")] *)
Context (now : Sys → string).

Definition exec (command : string) : M Sys (bool * string) := λ s,
  let '(ok, output, m) := run_powershell command (machine s) in
  (Returns (ok, output), set_machine m s, [Exec command]).

(** [run_powershell(tweak["restore_cmd"])]: with [None] for a command
    [subprocess.run] raises a [TypeError], which [run_powershell] does
    not catch. *)
Definition exec_opt (command : option string) : M Sys (bool * string) :=
  match command with
  | Some c => exec c
  | None => raise TypeError
  end.

Definition save (applied : gset string) : M Sys unit := λ s,
  let f := default NoFault (head (io s)) in
  let '(_, d) := save_applied_tweaks applied (now (machine s)) f (backup_file s) in
  (Returns tt, set_disk d (tail (io s)) s, [Save applied]).

(** *** Apply *)

(** One turn of the loop of [_apply_worker]; the accumulator is
    [(newly_applied, skipped_admin)]. *)
Definition apply_body (tweak : tweak) (acc : list string * list string)
    : M Sys (list string * list string) :=
  let '(newly_applied, skipped_admin) := acc in
  let tid := id tweak in
  self_admin ← gets _admin;
  if admin tweak && negb self_admin then
    _log_warn ("SKIP  " +:+ name tweak +:+ "  (requires Administrator)");;
    mret (newly_applied, skipped_admin ++ [name tweak])
  else
    _log_info ("Applying: " +:+ name tweak +:+ " …");;
    '(ok, output) ← exec (apply_cmd tweak);
    if ok : bool then
      _log_ok (name tweak);;
      mret (newly_applied ++ [tid], skipped_admin)
    else
      _log_err (name tweak +:+ "  — " +:+ or_ output "unknown error");;
      mret (newly_applied, skipped_admin).

Definition apply_summary (selected : list tweak)
    (newly_applied skipped_admin : list string) : string :=
  let n_ok := Z.of_nat (length newly_applied) in
  let n_skip := Z.of_nat (length skipped_admin) in
  let n_err := (Z.of_nat (length selected) - n_ok - n_skip)%Z in
  let parts :=
    (if decide (n_ok = 0%Z) then [] else [pretty n_ok +:+ " applied"]) ++
    (if decide (n_skip = 0%Z) then [] else [pretty n_skip +:+ " skipped (need admin)"]) ++
    (if decide (n_err = 0%Z) then [] else [pretty n_err +:+ " failed"]) in
  "── Done: " +:+ join ", " parts +:+ " ──────────────────────".

Definition skipped_warning (skipped_admin : list string) : string :=
  "Some tweaks were skipped because they require Administrator rights:" +:+ nl +:+ nl
  +:+ join nl ((λ n, "  • " +:+ n) <$> skipped_admin)
  +:+ nl +:+ nl +:+ "Restart the application as Administrator to apply them.".

(** The events of [_apply_worker] that follow the save. *)
Definition apply_epilogue (selected : list tweak) (newly_applied skipped_admin : list string)
    : list event :=
  Log (apply_summary selected newly_applied skipped_admin) THeading
  :: match skipped_admin with
     | [] => []
     | _ :: _ => [ShowWarning (skipped_warning skipped_admin)]
     end
  ++ [SetBusy false].

Definition _apply_worker (selected : list tweak) : M Sys unit :=
  emit (SetBusy true);;
  _log_heading ("── Applying " +:+ pretty (length selected)
                +:+ " tweak(s) ──────────────────");;
  '(newly_applied, skipped_admin) ← for_each selected apply_body ([], []);
  (* Persist state *)
  modify (λ s, set_applied (_applied s ∪ list_to_set newly_applied) s);;
  applied ← gets _applied;
  save applied;;
  (* Summary *)
  _log_heading (apply_summary selected newly_applied skipped_admin);;
  match skipped_admin with
  | [] => mret tt
  | _ :: _ => emit (ShowWarning (skipped_warning skipped_admin))
  end;;
  emit (SetBusy false).

Definition _on_apply (TWEAKS : list tweak) : M Sys unit :=
  vars ← gets _vars;
  selected ← lift (select vars TWEAKS);
  match selected with
  | [] => emit (ShowInfo "Please select at least one tweak to apply.")
  | _ :: _ => spawn (_apply_worker selected)
  end.

(** *** Restore *)

(** One turn of the loop of [_restore_worker]; the accumulator is
    [restored]. *)
Definition restore_body (tweak : tweak) (restored : list string) : M Sys (list string) :=
  self_admin ← gets _admin;
  if admin tweak && negb self_admin then
    _log_warn ("SKIP  " +:+ name tweak +:+ "  (requires Administrator)");;
    mret restored
  else
    _log_info ("Restoring: " +:+ name tweak +:+ " …");;
    '(ok, output) ← exec_opt (restore_cmd tweak);
    if ok : bool then
      _log_ok ("Restored  " +:+ name tweak);;
      mret (restored ++ [id tweak])
    else
      _log_err (name tweak +:+ "  — " +:+ or_ output "unknown error");;
      mret restored.

(** [for tid in restored: applied.discard(tid)] *)
Definition discard_all (applied : gset string) (restored : list string) : gset string :=
  foldl (λ a tid, a ∖ {[tid]}) applied restored.

Definition _restore_worker (restorable : list tweak) : M Sys unit :=
  emit (SetBusy true);;
  _log_heading ("── Restoring " +:+ pretty (length restorable)
                +:+ " tweak(s) ─────────────────");;
  restored ← for_each restorable restore_body [];
  (* Remove successfully restored tweaks from the applied set *)
  modify (λ s, set_applied (discard_all (_applied s) restored) s);;
  applied ← gets _applied;
  save applied;;
  _log_heading ("── Done: " +:+ pretty (length restored) +:+ "/"
                +:+ pretty (length restorable) +:+ " restored ──────────────");;
  emit (SetBusy false).

Definition restore_prompt (restorable irreversible : list tweak) : string :=
  join nl (
    match restorable with
    | [] => []
    | _ :: _ =>
        ("The following tweaks will be RESTORED to Windows defaults:" +:+ nl)
        :: ((λ t, "  • " +:+ name t) <$> restorable)
    end ++
    match irreversible with
    | [] => []
    | _ :: _ =>
        (nl +:+ "The following tweaks cannot be automatically reversed:" +:+ nl)
        :: ((λ t, "  • " +:+ name t +:+ "  (one-way)") <$> irreversible)
    end ++
    [nl +:+ "Proceed?"]).

Definition _on_restore (TWEAKS : list tweak) : M Sys unit :=
  applied ← gets _applied;
  let restorable := restorable applied TWEAKS in
  let irreversible := irreversible applied TWEAKS in
  match restorable, irreversible with
  | [], [] =>
      emit (ShowInfo ("No previously applied tweaks were found to restore." +:+ nl +:+ nl
        +:+ "Arc Booster tracks tweaks applied in this and previous sessions."))
  | _, _ =>
      answer ← askyesno (restore_prompt restorable irreversible);
      if answer : bool then spawn (_restore_worker restorable) else mret tt
  end.

(** *** The batch as the design document describes it *)

(** Whether the privilege gate lets a tweak through. *)
Definition permitted (has_privilege : bool) (t : tweak) : bool :=
  negb (admin t && negb has_privilege).

(** The outcome records of a batch: a tweak the gate stops is
    [SkippedPrivilege]; otherwise its action is run on the machine the
    earlier tweaks left, and the record is [success] or [Failed].  A
    tweak that got through the gate without an action ends the list. *)
Fixpoint outcomes (success : outcome) (action : tweak → option string)
    (has_privilege : bool) (batch : list tweak) (m : Sys) : list outcome :=
  match batch with
  | [] => []
  | t :: rest =>
      if permitted has_privilege t then
        match action t with
        | Some c =>
            let '(ok, output, m') := run_powershell c m in
            (if ok : bool then success else Failed (or_ output "unknown error"))
            :: outcomes success action has_privilege rest m'
        | None => []
        end
      else SkippedPrivilege :: outcomes success action has_privilege rest m
  end.

Definition apply_outcomes : bool → list tweak → Sys → list outcome :=
  outcomes Applied (λ t, Some (apply_cmd t)).
Definition restore_outcomes : bool → list tweak → Sys → list outcome :=
  outcomes Restored restore_cmd.

(** The ids of the tweaks of a batch whose outcome record is [o]. *)
Definition ids_with (o : outcome) (batch : list tweak) (outs : list outcome) : list string :=
  (λ p, id p.1) <$> filter (λ p, p.2 = o) (zip batch outs).

(** The log line that reports an outcome. *)
Definition outcome_line (t : tweak) (o : outcome) : event :=
  match o with
  | Applied => Log ("✔  " +:+ name t) TOk
  | Restored => Log ("✔  " +:+ "Restored  " +:+ name t) TOk
  | SkippedPrivilege =>
      Log ("⚠  " +:+ "SKIP  " +:+ name t +:+ "  (requires Administrator)") TWarn
  | Failed message => Log ("✘  " +:+ name t +:+ "  — " +:+ message) TErr
  end.

(** *** Reading a trace *)

Definition is_outcome_line (e : event) : bool :=
  match e with
  | Log _ (TOk | TErr | TWarn) => true
  | _ => false
  end.

Definition outcome_lines (tr : list event) : list event :=
  filter (λ e, is_outcome_line e = true) tr.

Definition execs (tr : list event) : list string :=
  omap (λ e, match e with Exec c => Some c | _ => None end) tr.

Definition saves (tr : list event) : list (gset string) :=
  omap (λ e, match e with Save a => Some a | _ => None end) tr.

(** What the engine, as the caller of [save_applied_tweaks], gets to see
    of a run: its result, its trace and the set it holds in memory. *)
Definition engine_view (run : result unit * state Sys * list event)
    : result unit * list event * gset string :=
  (run.1.1, run.2, _applied run.1.2).

(** The set a later [load_applied_tweaks()] would return. *)
Definition persisted (s : state Sys) : result (gset pykey) :=
  load_applied_tweaks (backup_file s).

Definition as_keys (ids : gset string) : gset pykey := set_map KStr ids.
End engine.

(** ** The rest of the window: check boxes, select-all, placement *)

Definition set_vars {Sys} (v : gmap string bool) (s : state Sys) : state Sys :=
  State (_admin s) (_applied s) v (machine s) (backup_file s) (io s) (answers s).

(** [by_cat = {cat: [] for cat in CATEGORIES}] of [_build_ui] *)
Definition by_cat_init : gmap string (list tweak) :=
  list_to_map ((λ cat, (cat, [])) <$> CATEGORIES).

(** [for tweak in TWEAKS: by_cat[tweak["category"]].append(tweak)]: a
    category that is not a key is a [KeyError]. *)
Fixpoint by_cat_fill (TWEAKS : list tweak) (by_cat : gmap string (list tweak))
    : result (gmap string (list tweak)) :=
  match TWEAKS with
  | [] => Returns by_cat
  | tweak :: rest =>
      match by_cat !! category tweak with
      | None => Raises KeyError
      | Some tweaks => by_cat_fill rest (<[category tweak := tweaks ++ [tweak]]> by_cat)
      end
  end.

(** The tweaks in the order [_build_ui] makes their cards:
    [for cat in CATEGORIES: for tweak in by_cat[cat]: ...]. *)
Definition cards (by_cat : gmap string (list tweak)) : list tweak :=
  concat ((λ cat, default [] (by_cat !! cat)) <$> CATEGORIES).

(** [self._vars[tweak["id"]] = tk.BooleanVar(value=False)] for every card,
    starting from the [vars] there are. *)
Definition build_vars (TWEAKS : list tweak) (vars : gmap string bool)
    : result (gmap string bool) :=
  result_bind (by_cat_fill TWEAKS by_cat_init) (λ by_cat,
  Returns (foldl (λ v tweak, <[id tweak := false]> v) vars (cards by_cat))).

(** [_toggle_all], with [state] the value of the select-all box. *)
Definition _toggle_all {Sys} (state : bool) : M Sys unit :=
  modify (λ s, set_vars ((λ _, state) <$> _vars s) s).

(** Whether the check box of a tweak is ticked. *)
Definition checked (vars : gmap string bool) (t : tweak) : Prop :=
  vars !! id t = Some true.

Global Instance checked_dec vars t : Decision (checked vars t).
Proof. unfold checked. apply _. Defined.

(** [(screen - size) // 2] of [_center_window] *)
Definition center_offset (screen size : Z) : Z := ((screen - size) `div` 2)%Z.

(** The geometry string [_center_window] sets, from the screen and window
    sizes. *)
Definition _center_window (screen_w screen_h w h : Z) : string :=
  "+" +:+ pretty (center_offset screen_w w) +:+ "+" +:+ pretty (center_offset screen_h h).

(** ** The trace of a batch, tweak by tweak *)

(** What one tweak of an apply batch leaves in the trace, by its outcome. *)
Definition apply_segment (t : tweak) (o : outcome) : list event :=
  match o with
  | SkippedPrivilege => [outcome_line t o]
  | Applied | Restored | Failed _ =>
      [Log ("Applying: " +:+ name t +:+ " …") TInfo; Exec (apply_cmd t); outcome_line t o]
  end.

(** What one tweak of a restore batch leaves in the trace, by its
    outcome. *)
Definition restore_segment (t : tweak) (o : outcome) : list event :=
  match o with
  | SkippedPrivilege => [outcome_line t o]
  | Applied | Restored | Failed _ =>
      Log ("Restoring: " +:+ name t +:+ " …") TInfo
      :: match restore_cmd t with Some c => [Exec c] | None => [] end
      ++ [outcome_line t o]
  end.

(** The values [_set_busy] is scheduled with, and the warning dialogs, of
    a trace. *)
Definition busy_changes (tr : list event) : list bool :=
  omap (λ e, match e with SetBusy b => Some b | _ => None end) tr.
Definition warnings (tr : list event) : list string :=
  omap (λ e, match e with ShowWarning text => Some text | _ => None end) tr.

Definition is_failed (o : outcome) : Prop :=
  match o with Failed _ => True | _ => False end.

Global Instance is_failed_dec o : Decision (is_failed o).
Proof. destruct o; apply _. Defined.

(** The summary line of an apply batch for given counts of applied,
    skipped and failed tweaks. *)
Definition summary_line (n_ok n_skip n_err : Z) : string :=
  "── Done: " +:+
  join ", "
    ((if decide (n_ok = 0%Z) then [] else [pretty n_ok +:+ " applied"]) ++
     (if decide (n_skip = 0%Z) then [] else [pretty n_skip +:+ " skipped (need admin)"]) ++
     (if decide (n_err = 0%Z) then [] else [pretty n_err +:+ " failed"]))
  +:+ " ──────────────────────".

(** * Properties *)

(** ** State store *)

Lemma sorted_Sorted (l : list string) : Sorted String.le (sorted l).
Proof. apply (Sorted_merge_sort String.le). Qed.

Lemma sorted_Permutation (l : list string) : sorted l ≡ₚ l.
Proof. apply (merge_sort_Permutation String.le). Qed.

(** The sorted list does not depend on the order in which the set is
    enumerated. *)
Lemma sorted_order_independent (l1 l2 : list string) : l1 ≡ₚ l2 → sorted l1 = sorted l2.
Proof.
  intros Hp. apply (Sorted_unique String.le); try apply sorted_Sorted.
  by rewrite !sorted_Permutation.
Qed.

Lemma elem_of_sorted (i : string) (l : list string) : i ∈ sorted l ↔ i ∈ l.
Proof. by rewrite sorted_Permutation. Qed.

Lemma mapM_hashable_strings (l : list string) :
  result_mapM hashable (JStr <$> l) = Returns (KStr <$> l).
Proof.
  induction l as [|x l IH]; [done|].
  rewrite !fmap_cons. cbn [result_mapM hashable result_bind]. by rewrite IH.
Qed.

Lemma as_keys_sorted (S : gset string) :
  list_to_set (KStr <$> sorted (elements S)) = as_keys S.
Proof.
  apply set_eq. intros k. unfold as_keys.
  rewrite elem_of_list_to_set, elem_of_map, list_elem_of_fmap.
  by setoid_rewrite elem_of_sorted; setoid_rewrite elem_of_elements.
Qed.

Lemma load_record (S : gset string) (now : string) :
  load_applied_tweaks (File (Json (record S now))) = Returns (as_keys S).
Proof.
  unfold load_applied_tweaks, load_try. simpl.
  rewrite mapM_hashable_strings. simpl. by rewrite as_keys_sorted.
Qed.

Lemma as_keys_inj (S1 S2 : gset string) : as_keys S1 = as_keys S2 → S1 = S2.
Proof.
  intros Heq. apply set_eq. intros i.
  assert (Hk : ∀ S : gset string, KStr i ∈ as_keys S ↔ i ∈ S).
  { intros S. unfold as_keys. rewrite elem_of_map. split.
    - by intros (j & [= ->] & Hj).
    - intros Hi. by exists i. }
  by rewrite <- !Hk, Heq.
Qed.

(** The file states [load_applied_tweaks] normalises to the empty set. *)
Lemma load_empty_cases (d : disk) :
  d = Missing ∨ d = Unreadable ∨ d = File NotJson ∨
  (∃ items, d = File (Json (JDict items)) ∧ assoc "applied" items = None) →
  load_applied_tweaks d = Returns ∅.
Proof.
  intros [->|[->|[->|(items & -> & Hnone)]]]; try done.
  unfold load_applied_tweaks, load_try. simpl. by rewrite Hnone.
Qed.

(** C6: [load()] right after a successful [save(S)] returns [S]; saving
    the same set again writes the same record up to its timestamp: the
    id array is the sorted, duplicate-free enumeration of [S], whatever the
    order in which the set happens to be enumerated. *)
Theorem save_load_roundtrip (S : gset string) (now1 now2 : string) (d : disk) :
  let d1 := (save_applied_tweaks S now1 NoFault d).2 in
  let d2 := (save_applied_tweaks S now2 NoFault d1).2 in
  load_applied_tweaks d1 = Returns (as_keys S) ∧
  load_applied_tweaks d2 = Returns (as_keys S) ∧
  ∃ ids : list string,
    d1 = File (Json (JDict [("applied", JList (JStr <$> ids));
                            ("last_modified", JStr now1)])) ∧
    d2 = File (Json (JDict [("applied", JList (JStr <$> ids));
                            ("last_modified", JStr now2)])) ∧
    Sorted String.le ids ∧ NoDup ids ∧ (∀ i, i ∈ ids ↔ i ∈ S) ∧
    (∀ l, l ≡ₚ elements S → sorted l = ids).
Proof.
  simpl. split; [apply load_record|]. split; [apply load_record|].
  exists (sorted (elements S)).
  split; [done|]. split; [done|]. split; [apply sorted_Sorted|].
  split; [rewrite sorted_Permutation; apply NoDup_elements|].
  split.
  - intros i. rewrite elem_of_sorted. apply elem_of_elements.
  - intros l Hl. by apply sorted_order_independent.
Qed.

(** C7 (evaluated where the code departs from it): a file holding valid
    JSON of an unexpected shape, or bytes that are not UTF-8, makes
    [load_applied_tweaks] raise, and a string where the id array should
    be is loaded as a non-empty set. *)
Theorem load_raises_on_wrong_shape :
  load_applied_tweaks (File (Json (JList []))) = Raises AttributeError ∧
  load_applied_tweaks (File (Json (JDict [("applied", JInt 5)]))) = Raises TypeError ∧
  load_applied_tweaks (File (Json (JDict [("applied", JNull)]))) = Raises TypeError ∧
  load_applied_tweaks (File (Json (JDict [("applied", JList [JList []])])))
    = Raises TypeError ∧
  load_applied_tweaks (File NotUtf8) = Raises UnicodeDecodeError ∧
  load_applied_tweaks (File (Json (JDict [("applied", JStr "ab")])))
    = Returns {[KStr "a"; KStr "b"]} ∧
  ({[KStr "a"; KStr "b"]} : gset pykey) ≠ ∅.
Proof.
  repeat split; try reflexivity.
  intros Heq. assert (Hin : KStr "a" ∈ (∅ : gset pykey)); [|set_solver].
  rewrite <- Heq. set_solver.
Qed.

(** ** The batch workers *)

Section properties.
Context {Sys : Type}.
Context (run_powershell : string → Sys → bool * string * Sys).
Context (now : Sys → string).

Implicit Types (s : state Sys) (R : list tweak) (t : tweak) (o : outcome).

Lemma set_machine_same s : set_machine (machine s) s = s.
Proof. by destruct s. Qed.

Lemma set_machine_twice (m1 m2 : Sys) s :
  set_machine m2 (set_machine m1 s) = set_machine m2 s.
Proof. done. Qed.

Lemma ids_with_cons o t R (x : outcome) (outs : list outcome) :
  ids_with o (t :: R) (x :: outs)
  = (if decide (x = o) then [id t] else []) ++ ids_with o R outs.
Proof.
  unfold ids_with. simpl. rewrite filter_cons. simpl.
  by destruct (decide (x = o)).
Qed.

Lemma outcome_lines_cons (e : event) (tr : list event) :
  outcome_lines (e :: tr)
  = (if is_outcome_line e then [e] else []) ++ outcome_lines tr.
Proof.
  unfold outcome_lines. rewrite filter_cons.
  destruct (is_outcome_line e); by case_decide.
Qed.

Lemma outcome_lines_app (tr1 tr2 : list event) :
  outcome_lines (tr1 ++ tr2) = outcome_lines tr1 ++ outcome_lines tr2.
Proof. apply filter_app. Qed.

Lemma execs_cons (e : event) (tr : list event) :
  execs (e :: tr) = match e with Exec c => [c] | _ => [] end ++ execs tr.
Proof. by destruct e. Qed.

Lemma execs_app (tr1 tr2 : list event) : execs (tr1 ++ tr2) = execs tr1 ++ execs tr2.
Proof. apply omap_app. Qed.

Lemma saves_cons (e : event) (tr : list event) :
  saves (e :: tr) = match e with Save a => [a] | _ => [] end ++ saves tr.
Proof. by destruct e. Qed.

Lemma saves_app (tr1 tr2 : list event) : saves (tr1 ++ tr2) = saves tr1 ++ saves tr2.
Proof. apply omap_app. Qed.

Lemma outcomes_length (success : outcome) (action : tweak → option string)
    (p : bool) R (m : Sys) :
  Forall (λ t, permitted p t = true → is_Some (action t)) R →
  length (outcomes run_powershell success action p R m) = length R.
Proof.
  intros HR. revert m. induction HR as [|t R Ht HR IH]; intros m; [done|].
  simpl. destruct (permitted p t) eqn:Hp; simpl; [|by rewrite IH].
  destruct (Ht eq_refl) as [c ->].
  destruct (run_powershell c m) as [[ok output] m']. simpl. by rewrite IH.
Qed.

Lemma for_each_cons {A B} (x : A) (l : list A) (body : A → B → M Sys B) (acc : B) s :
  for_each (x :: l) body acc s
  = match body x acc s with
    | (Returns acc', s1, tr1) =>
        let '(r, s2, tr2) := for_each l body acc' s1 in (r, s2, tr1 ++ tr2)
    | (Raises e, s1, tr1) => (Raises e, s1, tr1)
    end.
Proof. done. Qed.

(** A turn of the apply loop for a tweak the privilege gate stops. *)
Lemma apply_body_skip t (na sk : list string) s :
  permitted (_admin s) t = false →
  apply_body run_powershell t (na, sk) s
  = (Returns (na, sk ++ [name t]), s, [outcome_line t SkippedPrivilege]).
Proof.
  unfold permitted. intros Hgate%negb_false_iff.
  unfold apply_body, mbind, M_bind, bind, gets. by rewrite Hgate.
Qed.

(** A turn of the apply loop for a tweak that gets through the gate. *)
Lemma apply_body_run t (na sk : list string) s (ok : bool) (output : string) (m : Sys) :
  permitted (_admin s) t = true →
  run_powershell (apply_cmd t) (machine s) = (ok, output, m) →
  apply_body run_powershell t (na, sk) s
  = (Returns (if ok then (na ++ [id t], sk) else (na, sk)),
     set_machine m s,
     [Log ("Applying: " +:+ name t +:+ " …") TInfo; Exec (apply_cmd t);
      outcome_line t (if ok then Applied else Failed (or_ output "unknown error"))]).
Proof.
  unfold permitted. intros Hgate%negb_true_iff Hrun.
  unfold apply_body, mbind, M_bind, bind, gets, exec. rewrite Hgate. simpl.
  rewrite Hrun. by destruct ok.
Qed.

(** The loop of [_apply_worker]: its trace and the machine it leaves
    depend on the privilege flag and the machine it starts from only. *)
Lemma apply_loop R (p : bool) : ∀ m0 : Sys,
  let outs := apply_outcomes run_powershell p R m0 in
  ∃ (tr : list event) (m : Sys),
    (∀ (na sk : list string) s, _admin s = p → machine s = m0 →
       for_each R (apply_body run_powershell) (na, sk) s
       = (Returns (na ++ ids_with Applied R outs,
                   sk ++ (name <$> filter (λ t, permitted p t = false) R)),
          set_machine m s, tr))
    ∧ outcome_lines tr = zip_with outcome_line R outs
    ∧ execs tr = apply_cmd <$> filter (λ t, permitted p t = true) R
    ∧ saves tr = [].
Proof.
  induction R as [|t R IH]; intros m0 outs.
  { exists [], m0. split; [|done]. intros na sk s _ <-.
    rewrite set_machine_same. unfold ids_with. simpl. by rewrite !app_nil_r. }
  subst outs. unfold apply_outcomes in *. rewrite !filter_cons.
  cbn [outcomes].
  destruct (permitted p t) eqn:Hgate.
  - destruct (run_powershell (apply_cmd t) m0) as [[ok output] m] eqn:Hrun.
    destruct (IH m) as (tr & m' & Hloop & Hlines & Hexecs & Hsaves).
    exists ([Log ("Applying: " +:+ name t +:+ " …") TInfo; Exec (apply_cmd t);
             outcome_line t (if ok then Applied else Failed (or_ output "unknown error"))]
            ++ tr), m'.
    rewrite ids_with_cons. repeat case_decide; try done.
    all: destruct ok; try done.
    all: split; [|split; [|split]].
    all: try (intros na sk s <- <-;
              rewrite for_each_cons, (apply_body_run _ _ _ _ _ _ _ Hgate Hrun);
              rewrite Hloop by done; cbn [fst snd];
              by rewrite <- ?app_assoc, ?app_nil_l).
    all: cbn [app zip_with];
      rewrite ?outcome_lines_cons, ?execs_cons, ?saves_cons, ?fmap_cons;
      cbn [is_outcome_line outcome_line app]; by f_equal.
  - destruct (IH m0) as (tr & m' & Hloop & Hlines & Hexecs & Hsaves).
    exists (outcome_line t SkippedPrivilege :: tr), m'.
    rewrite ids_with_cons. repeat case_decide; try done.
    split; [|split; [|split]].
    + intros na sk s <- <-.
      rewrite for_each_cons, (apply_body_skip _ _ _ _ Hgate).
      rewrite Hloop by done. cbn [fst snd].
      by rewrite <- ?app_assoc, ?app_nil_l.
    + cbn [zip_with]. rewrite outcome_lines_cons. cbn [is_outcome_line outcome_line app].
      by f_equal.
    + by rewrite execs_cons.
    + by rewrite saves_cons.
Qed.

(** A turn of the restore loop for a tweak the privilege gate stops. *)
Lemma restore_body_skip t (restored : list string) s :
  permitted (_admin s) t = false →
  restore_body run_powershell t restored s
  = (Returns restored, s, [outcome_line t SkippedPrivilege]).
Proof.
  unfold permitted. intros Hgate%negb_false_iff.
  unfold restore_body, mbind, M_bind, bind, gets. by rewrite Hgate.
Qed.

(** A turn of the restore loop for a tweak that gets through the gate
    and has a restore command. *)
Lemma restore_body_run t (restored : list string) s
    (c : string) (ok : bool) (output : string) (m : Sys) :
  permitted (_admin s) t = true →
  restore_cmd t = Some c →
  run_powershell c (machine s) = (ok, output, m) →
  restore_body run_powershell t restored s
  = (Returns (if ok then restored ++ [id t] else restored),
     set_machine m s,
     [Log ("Restoring: " +:+ name t +:+ " …") TInfo; Exec c;
      outcome_line t (if ok then Restored else Failed (or_ output "unknown error"))]).
Proof.
  unfold permitted. intros Hgate%negb_true_iff Hcmd Hrun.
  unfold restore_body, mbind, M_bind, bind, gets, exec_opt, exec.
  rewrite Hgate, Hcmd. simpl. rewrite Hrun. by destruct ok.
Qed.

(** Without a restore command the turn ends in a [TypeError]. *)
Lemma restore_body_raise t (restored : list string) s :
  permitted (_admin s) t = true →
  restore_cmd t = None →
  restore_body run_powershell t restored s
  = (Raises TypeError, s, [Log ("Restoring: " +:+ name t +:+ " …") TInfo]).
Proof.
  unfold permitted. intros Hgate%negb_true_iff Hcmd.
  unfold restore_body, mbind, M_bind, bind, gets, exec_opt.
  by rewrite Hgate, Hcmd.
Qed.

(** The loop of [_restore_worker] over tweaks that have a restore
    command. *)
Lemma restore_loop R (p : bool) :
  Forall (λ t, is_Some (restore_cmd t)) R →
  ∀ m0 : Sys,
  let outs := restore_outcomes run_powershell p R m0 in
  ∃ (tr : list event) (m : Sys),
    (∀ (restored : list string) s, _admin s = p → machine s = m0 →
       for_each R (restore_body run_powershell) restored s
       = (Returns (restored ++ ids_with Restored R outs), set_machine m s, tr))
    ∧ outcome_lines tr = zip_with outcome_line R outs
    ∧ execs tr = omap restore_cmd (filter (λ t, permitted p t = true) R)
    ∧ saves tr = [].
Proof.
  induction 1 as [|t R [c Hcmd] HR IH]; intros m0 outs.
  { exists [], m0. split; [|done]. intros restored s _ <-.
    rewrite set_machine_same. unfold ids_with. simpl. by rewrite !app_nil_r. }
  subst outs. unfold restore_outcomes in *. rewrite !filter_cons.
  cbn [outcomes].
  destruct (permitted p t) eqn:Hgate.
  - rewrite Hcmd.
    destruct (run_powershell c m0) as [[ok output] m] eqn:Hrun.
    destruct (IH m) as (tr & m' & Hloop & Hlines & Hexecs & Hsaves).
    exists ([Log ("Restoring: " +:+ name t +:+ " …") TInfo; Exec c;
             outcome_line t (if ok then Restored else Failed (or_ output "unknown error"))]
            ++ tr), m'.
    rewrite ids_with_cons. repeat case_decide; try done.
    all: destruct ok; try done.
    all: split; [|split; [|split]].
    all: try (intros restored s <- <-;
              rewrite for_each_cons, (restore_body_run _ _ _ _ _ _ _ Hgate Hcmd Hrun);
              rewrite Hloop by done; cbn [fst snd];
              by rewrite <- ?app_assoc, ?app_nil_l).
    all: cbn [app zip_with omap list_omap];
      rewrite ?outcome_lines_cons, ?execs_cons, ?saves_cons, ?Hcmd;
      cbn [is_outcome_line outcome_line app]; by f_equal.
  - destruct (IH m0) as (tr & m' & Hloop & Hlines & Hexecs & Hsaves).
    exists (outcome_line t SkippedPrivilege :: tr), m'.
    rewrite ids_with_cons. repeat case_decide; try done.
    split; [|split; [|split]].
    + intros restored s <- <-.
      rewrite for_each_cons, (restore_body_skip _ _ _ Hgate).
      rewrite Hloop by done. cbn [fst snd].
      by rewrite <- ?app_assoc, ?app_nil_l.
    + cbn [zip_with]. rewrite outcome_lines_cons. cbn [is_outcome_line outcome_line app].
      by f_equal.
    + by rewrite execs_cons.
    + by rewrite saves_cons.
Qed.

Lemma save_run (applied : gset string) s :
  save now applied s
  = (Returns tt,
     set_disk (save_applied_tweaks applied (now (machine s))
                 (default NoFault (head (io s))) (backup_file s)).2
              (tail (io s)) s,
     [Save applied]).
Proof.
  unfold save.
  by destruct (save_applied_tweaks applied (now (machine s))
                 (default NoFault (head (io s))) (backup_file s)).
Qed.

Lemma discard_all_difference (applied : gset string) (restored : list string) :
  discard_all applied restored = applied ∖ list_to_set restored.
Proof.
  unfold discard_all. revert applied.
  induction restored as [|tid restored IH]; intros applied; simpl.
  - by rewrite difference_empty_L.
  - by rewrite IH, difference_difference_l_L.
Qed.

(** A whole run of [_apply_worker]: trace and final machine depend on
    the privilege flag and the starting machine only. *)
Lemma apply_worker_run R (p : bool) (m0 : Sys) :
  let outs := apply_outcomes run_powershell p R m0 in
  ∃ (tr post : list event) (m : Sys),
    (∀ s, _admin s = p → machine s = m0 →
       let applied := _applied s ∪ list_to_set (ids_with Applied R outs) in
       _apply_worker run_powershell now R s
       = (Returns tt,
          State p applied (_vars s) m
            (save_applied_tweaks applied (now m)
               (default NoFault (head (io s))) (backup_file s)).2
            (tail (io s)) (answers s),
          SetBusy true
          :: Log ("── Applying " +:+ pretty (length R)
                  +:+ " tweak(s) ──────────────────") THeading
          :: tr ++ Save applied :: post))
    ∧ outcome_lines tr = zip_with outcome_line R outs
    ∧ execs tr = apply_cmd <$> filter (λ t, permitted p t = true) R
    ∧ saves tr = []
    ∧ outcome_lines post = [] ∧ execs post = [] ∧ saves post = [].
Proof.
  intros outs.
  destruct (apply_loop R p m0) as (tr & m & Hloop & Hlines & Hexecs & Hsaves).
  exists tr,
    (apply_epilogue R (ids_with Applied R outs)
       (name <$> filter (λ t, permitted p t = false) R)), m.
  split; [|split; [done|split; [done|split; [done|]]]].
  - intros s <- <- applied.
    unfold _apply_worker, mbind, M_bind, bind at 1 2.
    cbn [emit _log_heading _log_write app].
    unfold bind at 1. rewrite Hloop by done. cbn [app fst snd].
    unfold bind at 1 2, modify, gets. cbn [set_applied _applied].
    unfold bind at 1. rewrite save_run.
    unfold bind, _log_heading, _log_write, emit, mret, M_ret, ret.
    cbn [set_applied set_machine set_disk _admin _applied _vars machine
         backup_file io answers app fst snd].
    unfold apply_epilogue.
    by destruct (name <$> filter (λ t, permitted (_admin s) t = false) R).
  - unfold apply_epilogue.
    by destruct (name <$> filter (λ t, permitted p t = false) R).
Qed.

(** A whole run of [_restore_worker] over tweaks that have a restore
    command. *)
Lemma restore_worker_run R (p : bool) (m0 : Sys) :
  Forall (λ t, is_Some (restore_cmd t)) R →
  let outs := restore_outcomes run_powershell p R m0 in
  ∃ (tr post : list event) (m : Sys),
    (∀ s, _admin s = p → machine s = m0 →
       let applied := _applied s ∖ list_to_set (ids_with Restored R outs) in
       _restore_worker run_powershell now R s
       = (Returns tt,
          State p applied (_vars s) m
            (save_applied_tweaks applied (now m)
               (default NoFault (head (io s))) (backup_file s)).2
            (tail (io s)) (answers s),
          SetBusy true
          :: Log ("── Restoring " +:+ pretty (length R)
                  +:+ " tweak(s) ─────────────────") THeading
          :: tr ++ Save applied :: post))
    ∧ outcome_lines tr = zip_with outcome_line R outs
    ∧ execs tr = omap restore_cmd (filter (λ t, permitted p t = true) R)
    ∧ saves tr = []
    ∧ outcome_lines post = [] ∧ execs post = [] ∧ saves post = [].
Proof.
  intros HR outs.
  destruct (restore_loop R p HR m0) as (tr & m & Hloop & Hlines & Hexecs & Hsaves).
  exists tr,
    [Log ("── Done: " +:+ pretty (length (ids_with Restored R outs)) +:+ "/"
          +:+ pretty (length R) +:+ " restored ──────────────") THeading;
     SetBusy false], m.
  split; [|done].
  intros s <- <- applied.
  unfold _restore_worker, mbind, M_bind, bind at 1 2.
  cbn [emit _log_heading _log_write app].
  unfold bind at 1. rewrite Hloop by done. cbn [app fst snd].
  unfold bind at 1 2, modify, gets. cbn [set_applied _applied].
  unfold bind at 1. rewrite save_run.
  unfold bind, _log_heading, _log_write, emit, mret, M_ret, ret.
  cbn [set_applied set_machine set_disk _admin _applied _vars machine
       backup_file io answers app fst snd].
  by rewrite discard_all_difference.
Qed.

(** *** Outcome records and ids *)

Lemma elem_of_ids_with o R (outs : list outcome) (i : string) :
  i ∈ ids_with o R outs ↔ ∃ k t, R !! k = Some t ∧ outs !! k = Some o ∧ id t = i.
Proof.
  unfold ids_with. rewrite list_elem_of_fmap. split.
  - intros ([t o'] & -> & [Ho Hin]%list_elem_of_filter). simpl in *. subst o'.
    apply list_elem_of_lookup in Hin as [k Hk].
    apply lookup_zip_with_Some in Hk as (t' & o' & [= <- <-] & Ht & Ho).
    by exists k, t.
  - intros (k & t & Ht & Ho & <-). exists (t, o). split; [done|].
    apply list_elem_of_filter. split; [done|].
    apply list_elem_of_lookup. exists k.
    apply lookup_zip_with_Some. by exists t, o.
Qed.

(** With distinct ids in the batch, the id of a tweak whose record is
    not [o] is not among the ids recorded [o]. *)
Lemma ids_with_other o o' R (outs : list outcome) (k : nat) t :
  NoDup (id <$> R) →
  R !! k = Some t → outs !! k = Some o' → o' ≠ o →
  id t ∉ ids_with o R outs.
Proof.
  intros Hnd Ht Ho' Hne (k' & t' & Ht' & Ho & Hid)%elem_of_ids_with.
  assert (k' = k) as ->.
  { apply (NoDup_lookup (id <$> R) k' k (id t)); [done| |].
    - by rewrite list_lookup_fmap, Ht', <- Hid.
    - by rewrite list_lookup_fmap, Ht. }
  congruence.
Qed.

(** A tweak the gate stops is recorded [SkippedPrivilege], at its own
    position. *)
Lemma outcomes_lookup_skipped (success : outcome) (action : tweak → option string)
    (p : bool) R (k : nat) t :
  Forall (λ t, is_Some (action t)) R →
  R !! k = Some t → permitted p t = false →
  ∀ m, outcomes run_powershell success action p R m !! k = Some SkippedPrivilege.
Proof.
  intros HR. revert k. induction HR as [|t' R [c Hc] HR IH]; intros k Hk Hp m.
  { by rewrite lookup_nil in Hk. }
  cbn [outcomes]. destruct k as [|k]; simpl in Hk.
  - injection Hk as ->. by rewrite Hp.
  - destruct (permitted p t'); [|by apply IH].
    rewrite Hc. destruct (run_powershell c m) as [[ok output] m']. by apply IH.
Qed.

(** Every record of an apply batch is [Applied], [SkippedPrivilege] or
    [Failed]. *)
Lemma apply_outcomes_kinds (p : bool) R (m : Sys) :
  Forall (λ o, o = Applied ∨ o = SkippedPrivilege ∨ ∃ msg, o = Failed msg)
    (apply_outcomes run_powershell p R m).
Proof.
  unfold apply_outcomes. revert m. induction R as [|t R IH]; intros m; [constructor|].
  cbn [outcomes]. destruct (permitted p t).
  - destruct (run_powershell (apply_cmd t) m) as [[[] output] m'];
      constructor; eauto.
  - constructor; eauto.
Qed.

Lemma apply_outcomes_length (p : bool) R (m : Sys) :
  length (apply_outcomes run_powershell p R m) = length R.
Proof. apply outcomes_length, Forall_forall. eauto. Qed.

Lemma restore_outcomes_length (p : bool) R (m : Sys) :
  Forall (λ t, is_Some (restore_cmd t)) R →
  length (restore_outcomes run_powershell p R m) = length R.
Proof. intros HR. apply outcomes_length. eapply Forall_impl; eauto. Qed.

(** *** What a batch leaves behind *)

Lemma apply_worker_facts R s :
  let run := _apply_worker run_powershell now R s in
  let outs := apply_outcomes run_powershell (_admin s) R (machine s) in
  let applied := _applied s ∪ list_to_set (ids_with Applied R outs) in
  run.1.1 = Returns tt ∧
  (∃ m, run.1.2
        = State (_admin s) applied (_vars s) m
            (save_applied_tweaks applied (now m)
               (default NoFault (head (io s))) (backup_file s)).2
            (tail (io s)) (answers s)) ∧
  saves run.2 = [applied] ∧
  outcome_lines run.2 = zip_with outcome_line R outs ∧
  execs run.2 = apply_cmd <$> filter (λ t, permitted (_admin s) t = true) R.
Proof.
  intros run outs applied.
  destruct (apply_worker_run R (_admin s) (machine s))
    as (tr & post & m & Hrun & Hlines & Hexecs & Hsaves & Hpost1 & Hpost2 & Hpost3).
  specialize (Hrun s eq_refl eq_refl). cbv zeta in Hrun.
  subst run. rewrite Hrun. cbn [fst snd].
  split; [done|]. split; [by exists m|].
  rewrite !saves_cons, !outcome_lines_cons, !execs_cons. cbn [is_outcome_line app].
  rewrite saves_app, outcome_lines_app, execs_app.
  rewrite saves_cons, outcome_lines_cons, execs_cons. cbn [is_outcome_line app].
  rewrite Hlines, Hexecs, Hsaves, Hpost1, Hpost2, Hpost3.
  by rewrite !app_nil_r.
Qed.

Lemma restore_worker_facts R s :
  Forall (λ t, is_Some (restore_cmd t)) R →
  let run := _restore_worker run_powershell now R s in
  let outs := restore_outcomes run_powershell (_admin s) R (machine s) in
  let applied := _applied s ∖ list_to_set (ids_with Restored R outs) in
  run.1.1 = Returns tt ∧
  (∃ m, run.1.2
        = State (_admin s) applied (_vars s) m
            (save_applied_tweaks applied (now m)
               (default NoFault (head (io s))) (backup_file s)).2
            (tail (io s)) (answers s)) ∧
  saves run.2 = [applied] ∧
  outcome_lines run.2 = zip_with outcome_line R outs ∧
  execs run.2 = omap restore_cmd (filter (λ t, permitted (_admin s) t = true) R).
Proof.
  intros HR run outs applied.
  destruct (restore_worker_run R (_admin s) (machine s) HR)
    as (tr & post & m & Hrun & Hlines & Hexecs & Hsaves & Hpost1 & Hpost2 & Hpost3).
  specialize (Hrun s eq_refl eq_refl). cbv zeta in Hrun.
  subst run. rewrite Hrun. cbn [fst snd].
  split; [done|]. split; [by exists m|].
  rewrite !saves_cons, !outcome_lines_cons, !execs_cons. cbn [is_outcome_line app].
  rewrite saves_app, outcome_lines_app, execs_app.
  rewrite saves_cons, outcome_lines_cons, execs_cons. cbn [is_outcome_line app].
  rewrite Hlines, Hexecs, Hsaves, Hpost1, Hpost2, Hpost3.
  by rewrite !app_nil_r.
Qed.

(** Ids outside the batch are not among the ids recorded [o]. *)
Lemma ids_with_outside o R (outs : list outcome) (i : string) :
  i ∉ (id <$> R) → i ∉ ids_with o R outs.
Proof.
  intros Hi (k & t & Ht & _ & <-)%elem_of_ids_with. apply Hi.
  apply list_elem_of_fmap. exists t. split; [done|].
  by eapply list_elem_of_lookup_2.
Qed.

Lemma union_keeps (X : gset string) (l : list string) (i : string) :
  i ∉ l → (i ∈ X ∪ list_to_set l ↔ i ∈ X).
Proof. rewrite elem_of_union, elem_of_list_to_set. tauto. Qed.

Lemma difference_keeps (X : gset string) (l : list string) (i : string) :
  i ∉ l → (i ∈ X ∖ list_to_set l ↔ i ∈ X).
Proof. rewrite elem_of_difference, elem_of_list_to_set. tauto. Qed.

(** *** The applied set after a batch *)

(** C1 (amended): after an apply batch the set held in memory, which is
    the set handed to [save_applied_tweaks], is the prior set united
    with the ids recorded [Applied]; a later load returns it whenever the
    write did not fail.  Ids not recorded [Applied] -- outside the batch,
    skipped or failed -- keep their membership. *)
Theorem apply_updates_applied_set R s :
  let run := _apply_worker run_powershell now R s in
  let outs := apply_outcomes run_powershell (_admin s) R (machine s) in
  let applied := _applied s ∪ list_to_set (ids_with Applied R outs) in
  run.1.1 = Returns tt ∧
  _applied run.1.2 = applied ∧
  saves run.2 = [applied] ∧
  (default NoFault (head (io s)) = NoFault →
     persisted run.1.2 = Returns (as_keys applied)) ∧
  (∀ i, i ∉ (id <$> R) → (i ∈ applied ↔ i ∈ _applied s)) ∧
  (NoDup (id <$> R) → ∀ k t o,
     R !! k = Some t → outs !! k = Some o → o ≠ Applied →
     (id t ∈ applied ↔ id t ∈ _applied s)).
Proof.
  intros run outs applied.
  destruct (apply_worker_facts R s) as (Hret & [m Hst] & Hsaves & _ & _).
  fold run in Hret, Hst, Hsaves. fold outs in Hst, Hsaves. fold applied in Hst, Hsaves.
  split; [done|]. split; [by rewrite Hst|]. split; [done|].
  split; [|split].
  - intros Hf. unfold persisted. rewrite Hst. cbn [backup_file].
    rewrite Hf. apply load_record.
  - intros i Hi. by apply union_keeps, ids_with_outside.
  - intros Hnd k t o Ht Ho Hne. by apply union_keeps, (ids_with_other _ o _ _ k).
Qed.

(** C2 (amended): after a restore batch over restorable tweaks the set
    held in memory, which is the set handed to [save_applied_tweaks], is
    the prior set without the ids recorded [Restored]; a later load
    returns it whenever the write did not fail.  An id whose restore was
    skipped or failed stays in the set. *)
Theorem restore_updates_applied_set R s :
  Forall (λ t, is_Some (restore_cmd t)) R →
  let run := _restore_worker run_powershell now R s in
  let outs := restore_outcomes run_powershell (_admin s) R (machine s) in
  let applied := _applied s ∖ list_to_set (ids_with Restored R outs) in
  run.1.1 = Returns tt ∧
  _applied run.1.2 = applied ∧
  saves run.2 = [applied] ∧
  (default NoFault (head (io s)) = NoFault →
     persisted run.1.2 = Returns (as_keys applied)) ∧
  (∀ i, i ∉ (id <$> R) → (i ∈ applied ↔ i ∈ _applied s)) ∧
  (NoDup (id <$> R) → ∀ k t o,
     R !! k = Some t → outs !! k = Some o → o ≠ Restored →
     (id t ∈ applied ↔ id t ∈ _applied s)).
Proof.
  intros HR run outs applied.
  destruct (restore_worker_facts R s HR) as (Hret & [m Hst] & Hsaves & _ & _).
  fold run in Hret, Hst, Hsaves. fold outs in Hst, Hsaves. fold applied in Hst, Hsaves.
  split; [done|]. split; [by rewrite Hst|]. split; [done|].
  split; [|split].
  - intros Hf. unfold persisted. rewrite Hst. cbn [backup_file].
    rewrite Hf. apply load_record.
  - intros i Hi. by apply difference_keeps, ids_with_outside.
  - intros Hnd k t o Ht Ho Hne. by apply difference_keeps, (ids_with_other _ o _ _ k).
Qed.

(** *** Best effort *)

(** C3: an apply batch runs to its end whatever the commands do: it
    returns normally, the executor is called with the apply command of
    every tweak the gate lets through, in input order, and the log holds
    exactly one outcome line per requested tweak, in input order, each
    reporting [Applied], [SkippedPrivilege] or [Failed]. *)
Theorem apply_attempts_every_tweak R s :
  let run := _apply_worker run_powershell now R s in
  let outs := apply_outcomes run_powershell (_admin s) R (machine s) in
  run.1.1 = Returns tt ∧
  length outs = length R ∧
  Forall (λ o, o = Applied ∨ o = SkippedPrivilege ∨ ∃ msg, o = Failed msg) outs ∧
  outcome_lines run.2 = zip_with outcome_line R outs ∧
  length (outcome_lines run.2) = length R ∧
  execs run.2 = apply_cmd <$> filter (λ t, permitted (_admin s) t = true) R.
Proof.
  intros run outs.
  destruct (apply_worker_facts R s) as (Hret & _ & _ & Hlines & Hexecs).
  fold run in Hret, Hlines, Hexecs. fold outs in Hlines.
  split; [done|].
  split; [apply apply_outcomes_length|].
  split; [apply apply_outcomes_kinds|].
  split; [done|]. split; [|done].
  rewrite Hlines, length_zip_with. subst outs. rewrite apply_outcomes_length. lia.
Qed.

(** *** The privilege gate *)

(** C4: without privilege, a tweak that requires it is skipped in both
    batches: its turn of the loop writes the skip line and nothing else
    (no executor call, the state as it was), its outcome record is
    [SkippedPrivilege], the commands executed in the batch are those of
    the tweaks the gate lets through, of which it is not one, and its id
    keeps its membership in the applied set. *)
Theorem privileged_tweak_skipped t s :
  admin t = true → _admin s = false →
  (∀ na sk, apply_body run_powershell t (na, sk) s
            = (Returns (na, sk ++ [name t]), s, [outcome_line t SkippedPrivilege])) ∧
  (∀ restored, restore_body run_powershell t restored s
               = (Returns restored, s, [outcome_line t SkippedPrivilege])) ∧
  (∀ R, t ∉ filter (λ t', permitted (_admin s) t' = true) R) ∧
  (∀ R,
     let run := _apply_worker run_powershell now R s in
     let outs := apply_outcomes run_powershell (_admin s) R (machine s) in
     execs run.2 = apply_cmd <$> filter (λ t', permitted (_admin s) t' = true) R ∧
     (∀ k, R !! k = Some t → outs !! k = Some SkippedPrivilege) ∧
     (NoDup (id <$> R) → t ∈ R → (id t ∈ _applied run.1.2 ↔ id t ∈ _applied s))) ∧
  (∀ R, Forall (λ t', is_Some (restore_cmd t')) R →
     let run := _restore_worker run_powershell now R s in
     let outs := restore_outcomes run_powershell (_admin s) R (machine s) in
     execs run.2 = omap restore_cmd (filter (λ t', permitted (_admin s) t' = true) R) ∧
     (∀ k, R !! k = Some t → outs !! k = Some SkippedPrivilege) ∧
     (NoDup (id <$> R) → t ∈ R → (id t ∈ _applied run.1.2 ↔ id t ∈ _applied s))).
Proof.
  intros Ht Hs.
  assert (Hgate : permitted (_admin s) t = false).
  { unfold permitted. by rewrite Ht, Hs. }
  split; [intros na sk; by apply apply_body_skip|].
  split; [intros restored; by apply restore_body_skip|].
  split; [intros R [Hp _]%list_elem_of_filter; congruence|].
  split.
  - intros R run outs.
    assert (Hk : ∀ k, R !! k = Some t → outs !! k = Some SkippedPrivilege).
    { intros k Hk. apply (outcomes_lookup_skipped _ _ _ R k t); [|done..].
      apply Forall_forall. eauto. }
    destruct (apply_worker_facts R s) as (_ & [m Hst] & _ & _ & Hexecs).
    fold run in Hst, Hexecs. fold outs in Hst.
    split; [done|]. split; [done|].
    intros Hnd [k Hin]%list_elem_of_lookup. rewrite Hst. cbn [_applied].
    apply union_keeps, (ids_with_other _ SkippedPrivilege _ _ k); auto.
  - intros R HR run outs.
    assert (Hk : ∀ k, R !! k = Some t → outs !! k = Some SkippedPrivilege).
    { intros k Hk. by apply (outcomes_lookup_skipped _ _ _ R k t). }
    destruct (restore_worker_facts R s HR) as (_ & [m Hst] & _ & _ & Hexecs).
    fold run in Hst, Hexecs. fold outs in Hst.
    split; [done|]. split; [done|].
    intros Hnd [k Hin]%list_elem_of_lookup. rewrite Hst. cbn [_applied].
    apply difference_keeps, (ids_with_other _ SkippedPrivilege _ _ k); auto.
Qed.

(** *** The restoration plan *)

Lemma on_restore_returns (TWEAKS : list tweak) s :
  (_on_restore run_powershell now TWEAKS s).1.1 = Returns tt.
Proof.
  unfold _on_restore, mbind, M_bind, bind, gets, askyesno, spawn.
  destruct (restorable (_applied s) TWEAKS), (irreversible (_applied s) TWEAKS);
    try done.
  all: destruct (default false (head (answers s))); try done.
  all: by destruct (_restore_worker _ _ _ _) as [[? ?] ?].
Qed.

Lemma plan_covers (applied : gset string) (TWEAKS : list tweak) :
  restorable applied TWEAKS ++ irreversible applied TWEAKS
  ≡ₚ filter (λ t, id t ∈ applied) TWEAKS.
Proof.
  unfold restorable, irreversible.
  induction TWEAKS as [|t TWEAKS IH]; [done|].
  destruct (decide (id t ∈ applied)) as [Hin|Hout].
  - rewrite (filter_cons_True (λ t, id t ∈ applied)) by done.
    destruct (restore_cmd t) as [c|] eqn:Hc.
    + rewrite (filter_cons_True (λ t, _ ∧ restore_cmd t ≠ None)) by (by rewrite Hc).
      rewrite (filter_cons_False (λ t, _ ∧ restore_cmd t = None))
        by (rewrite Hc; by intros [_ ?]).
      simpl. by rewrite IH.
    + rewrite (filter_cons_False (λ t, _ ∧ restore_cmd t ≠ None))
        by (rewrite Hc; by intros [_ ?]).
      rewrite (filter_cons_True (λ t, _ ∧ restore_cmd t = None)) by done.
      by rewrite <- Permutation_middle, IH.
  - rewrite (filter_cons_False (λ t, id t ∈ applied)) by done.
    rewrite (filter_cons_False (λ t, _ ∧ restore_cmd t ≠ None)) by (by intros [? _]).
    by rewrite (filter_cons_False (λ t, _ ∧ restore_cmd t = None)) by (by intros [? _]).
Qed.

(** C5: the two lists [_on_restore] computes keep the order of the
    registry, share no tweak, and hold between them exactly the registry
    tweaks whose id is in the applied set -- with a restore command in
    the one, without in the other; their ids are the applied ids that
    the registry knows, an applied id it does not know is in neither, and
    [_on_restore] itself returns normally. *)
Theorem plan_partitions_applied (applied : gset string) (TWEAKS : list tweak) s :
  restorable applied TWEAKS `sublist_of` TWEAKS ∧
  irreversible applied TWEAKS `sublist_of` TWEAKS ∧
  (∀ t, t ∈ restorable applied TWEAKS
        ↔ t ∈ TWEAKS ∧ id t ∈ applied ∧ is_Some (restore_cmd t)) ∧
  (∀ t, t ∈ irreversible applied TWEAKS
        ↔ t ∈ TWEAKS ∧ id t ∈ applied ∧ restore_cmd t = None) ∧
  (∀ t, t ∈ restorable applied TWEAKS → t ∉ irreversible applied TWEAKS) ∧
  restorable applied TWEAKS ++ irreversible applied TWEAKS
    ≡ₚ filter (λ t, id t ∈ applied) TWEAKS ∧
  (∀ i, i ∈ (id <$> (restorable applied TWEAKS ++ irreversible applied TWEAKS))
        ↔ i ∈ applied ∧ i ∈ (id <$> TWEAKS)) ∧
  (∀ i, i ∈ applied → i ∉ (id <$> TWEAKS) →
        (i ∉ (id <$> restorable applied TWEAKS)) ∧
        (i ∉ (id <$> irreversible applied TWEAKS))) ∧
  (_on_restore run_powershell now TWEAKS s).1.1 = Returns tt.
Proof.
  assert (Hr : ∀ t, t ∈ restorable applied TWEAKS
                    ↔ t ∈ TWEAKS ∧ id t ∈ applied ∧ is_Some (restore_cmd t)).
  { intros t. unfold restorable. rewrite list_elem_of_filter.
    rewrite <- not_eq_None_Some. tauto. }
  assert (Hi : ∀ t, t ∈ irreversible applied TWEAKS
                    ↔ t ∈ TWEAKS ∧ id t ∈ applied ∧ restore_cmd t = None).
  { intros t. unfold irreversible. rewrite list_elem_of_filter. tauto. }
  assert (Hids : ∀ i, i ∈ (id <$> (restorable applied TWEAKS ++ irreversible applied TWEAKS))
                      ↔ i ∈ applied ∧ i ∈ (id <$> TWEAKS)).
  { intros i. rewrite plan_covers, !list_elem_of_fmap. split.
    - intros (t & -> & [Hin Ht]%list_elem_of_filter). eauto.
    - intros (Hin & t & -> & Ht). exists t. split; [done|].
      by apply list_elem_of_filter. }
  split; [apply sublist_filter|]. split; [apply sublist_filter|].
  split; [done|]. split; [done|]. split.
  { intros t (_ & _ & [c Hc])%Hr (_ & _ & Hn)%Hi. congruence. }
  split; [apply plan_covers|]. split; [done|]. split; [|apply on_restore_returns].
  intros i Hin Hout. split; intros Hmem; apply Hout.
  - apply list_elem_of_fmap in Hmem as (t & -> & Ht%Hr).
    apply list_elem_of_fmap. exists t. tauto.
  - apply list_elem_of_fmap in Hmem as (t & -> & Ht%Hi).
    apply list_elem_of_fmap. exists t. tauto.
Qed.

(** *** Persistence *)

(** C8 (amended): a failing write is passed over in silence.
    [save_applied_tweaks] returns the same nothing whatever becomes of
    the write, a failing [mkdir] or [open] leaves the file as it was, and
    whatever the fate of the writes, a batch returns normally with the
    same trace and the same updated set in memory. *)
Theorem write_failure_is_silent R s (fs1 fs2 : list io_fault) :
  let s1 := set_disk (backup_file s) fs1 s in
  let s2 := set_disk (backup_file s) fs2 s in
  (∀ applied ts f d,
     (save_applied_tweaks applied ts f d).1
     = (save_applied_tweaks applied ts NoFault d).1) ∧
  (∀ applied ts d,
     (save_applied_tweaks applied ts MkdirFails d).2 = d ∧
     (save_applied_tweaks applied ts OpenFails d).2 = d) ∧
  engine_view (_apply_worker run_powershell now R s1)
  = engine_view (_apply_worker run_powershell now R s2) ∧
  engine_view (_apply_worker run_powershell now R s1)
  = (Returns tt, (_apply_worker run_powershell now R s).2,
     _applied s ∪ list_to_set
       (ids_with Applied R (apply_outcomes run_powershell (_admin s) R (machine s)))) ∧
  (Forall (λ t, is_Some (restore_cmd t)) R →
     engine_view (_restore_worker run_powershell now R s1)
     = engine_view (_restore_worker run_powershell now R s2) ∧
     engine_view (_restore_worker run_powershell now R s1)
     = (Returns tt, (_restore_worker run_powershell now R s).2,
        _applied s ∖ list_to_set
          (ids_with Restored R
             (restore_outcomes run_powershell (_admin s) R (machine s))))).
Proof.
  intros s1 s2.
  split; [by intros applied ts [] d|]. split; [done|].
  assert (Happly : ∀ fs,
    engine_view (_apply_worker run_powershell now R (set_disk (backup_file s) fs s))
    = (Returns tt, (_apply_worker run_powershell now R s).2,
       _applied s ∪ list_to_set
         (ids_with Applied R (apply_outcomes run_powershell (_admin s) R (machine s))))).
  { intros fs.
    destruct (apply_worker_run R (_admin s) (machine s)) as (tr & post & m & Hrun & _).
    unfold engine_view.
    by rewrite (Hrun s eq_refl eq_refl), (Hrun (set_disk _ fs s) eq_refl eq_refl). }
  split; [unfold s1, s2; by rewrite !Happly|]. split; [apply Happly|].
  intros HR.
  assert (Hrestore : ∀ fs,
    engine_view (_restore_worker run_powershell now R (set_disk (backup_file s) fs s))
    = (Returns tt, (_restore_worker run_powershell now R s).2,
       _applied s ∖ list_to_set
         (ids_with Restored R
            (restore_outcomes run_powershell (_admin s) R (machine s))))).
  { intros fs.
    destruct (restore_worker_run R (_admin s) (machine s) HR)
      as (tr & post & m & Hrun & _).
    unfold engine_view.
    by rewrite (Hrun s eq_refl eq_refl), (Hrun (set_disk _ fs s) eq_refl eq_refl). }
  split; [unfold s1, s2; by rewrite !Hrestore|apply Hrestore].
Qed.

(** C9 (amended): in a batch [save_applied_tweaks] is called exactly
    once, with the applied set the batch ends with, and after every tweak
    has had its turn: all executor calls and all outcome lines of the
    trace come before the one [Save], and however far the loop has got,
    the file on disk and the applied set are still as the batch found
    them.  When that one write succeeds, the file then holds the record of
    that set; when it fails on [mkdir] or [open], the file is left as the
    batch found it. *)
Theorem save_once_after_all_tweaks R s :
  (∃ pre post a,
     (_apply_worker run_powershell now R s).2 = pre ++ Save a :: post ∧
     saves pre = [] ∧ saves post = [] ∧ execs post = [] ∧ outcome_lines post = [] ∧
     execs pre = apply_cmd <$> filter (λ t, permitted (_admin s) t = true) R ∧
     length (outcome_lines pre) = length R) ∧
  length (saves (_apply_worker run_powershell now R s).2) = 1 ∧
  (∀ R1 R2 na sk, R = R1 ++ R2 →
     let mid := (for_each R1 (apply_body run_powershell) (na, sk) s).1.2 in
     backup_file mid = backup_file s ∧ io mid = io s ∧ _applied mid = _applied s) ∧
  (let s' := (_apply_worker run_powershell now R s).1.2 in
   saves (_apply_worker run_powershell now R s).2 = [_applied s'] ∧
   (default NoFault (head (io s)) = NoFault →
      (∃ ts, backup_file s' = File (Json (record (_applied s') ts))) ∧
      persisted s' = Returns (as_keys (_applied s'))) ∧
   (head (io s) = Some MkdirFails ∨ head (io s) = Some OpenFails →
      backup_file s' = backup_file s)) ∧
  (Forall (λ t, is_Some (restore_cmd t)) R →
     (∃ pre post a,
        (_restore_worker run_powershell now R s).2 = pre ++ Save a :: post ∧
        saves pre = [] ∧ saves post = [] ∧ execs post = [] ∧ outcome_lines post = [] ∧
        execs pre
        = omap restore_cmd (filter (λ t, permitted (_admin s) t = true) R) ∧
        length (outcome_lines pre) = length R) ∧
     length (saves (_restore_worker run_powershell now R s).2) = 1 ∧
     (∀ R1 R2 restored, R = R1 ++ R2 →
        let mid := (for_each R1 (restore_body run_powershell) restored s).1.2 in
        backup_file mid = backup_file s ∧ io mid = io s ∧ _applied mid = _applied s) ∧
     (let s' := (_restore_worker run_powershell now R s).1.2 in
      saves (_restore_worker run_powershell now R s).2 = [_applied s'] ∧
      (default NoFault (head (io s)) = NoFault →
         (∃ ts, backup_file s' = File (Json (record (_applied s') ts))) ∧
         persisted s' = Returns (as_keys (_applied s'))) ∧
      (head (io s) = Some MkdirFails ∨ head (io s) = Some OpenFails →
         backup_file s' = backup_file s))).
Proof.
  split; [|split; [|split; [|split]]].
  - destruct (apply_worker_run R (_admin s) (machine s))
      as (tr & post & m & Hrun & Hlines & Hexecs & Hsaves & Hpost1 & Hpost2 & Hpost3).
    rewrite (Hrun s eq_refl eq_refl). cbn [snd].
    eexists (SetBusy true :: Log _ THeading :: tr), post, _.
    split; [done|].
    rewrite !saves_cons, !execs_cons, !outcome_lines_cons. cbn [is_outcome_line app].
    rewrite Hlines, length_zip_with, apply_outcomes_length.
    repeat (split; [done|]). lia.
  - destruct (apply_worker_facts R s) as (_ & _ & -> & _). done.
  - intros R1 R2 na sk _ mid.
    destruct (apply_loop R1 (_admin s) (machine s)) as (tr & m & Hloop & _).
    subst mid. by rewrite (Hloop na sk s eq_refl eq_refl).
  - intros s'. destruct (apply_worker_facts R s) as (_ & [m Hst] & Hsaves & _).
    subst s'. rewrite Hsaves, Hst. unfold persisted. cbn [_applied backup_file].
    split; [done|]. split.
    + intros ->. cbn [save_applied_tweaks snd]. split; [by eexists|apply load_record].
    + by intros [Hf|Hf]; rewrite Hf.
  - intros HR. split; [|split; [|split]].
    + destruct (restore_worker_run R (_admin s) (machine s) HR)
        as (tr & post & m & Hrun & Hlines & Hexecs & Hsaves & Hpost1 & Hpost2 & Hpost3).
      rewrite (Hrun s eq_refl eq_refl). cbn [snd].
      eexists (SetBusy true :: Log _ THeading :: tr), post, _.
      split; [done|].
      rewrite !saves_cons, !execs_cons, !outcome_lines_cons. cbn [is_outcome_line app].
      rewrite Hlines, length_zip_with, restore_outcomes_length by done.
      repeat (split; [done|]). lia.
    + destruct (restore_worker_facts R s HR) as (_ & _ & -> & _). done.
    + intros R1 R2 restored -> mid. apply Forall_app in HR as [HR1 _].
      destruct (restore_loop R1 (_admin s) HR1 (machine s)) as (tr & m & Hloop & _).
      subst mid. by rewrite (Hloop restored s eq_refl eq_refl).
    + intros s'. destruct (restore_worker_facts R s HR) as (_ & [m Hst] & Hsaves & _).
      subst s'. rewrite Hsaves, Hst. unfold persisted. cbn [_applied backup_file].
      split; [done|]. split.
      * intros ->. cbn [save_applied_tweaks snd]. split; [by eexists|apply load_record].
      * by intros [Hf|Hf]; rewrite Hf.
Qed.

(** *** An empty selection *)

(** C10: with no tweak selected [_on_apply] shows its message and
    returns: no worker is started, the executor is not called, nothing
    is saved, and the state -- the applied set and the file on disk with
    it -- is as it was. *)
Theorem empty_selection_starts_no_batch (TWEAKS : list tweak) s :
  select (_vars s) TWEAKS = Returns [] →
  let run := _on_apply run_powershell now TWEAKS s in
  run = (Returns tt, s, [ShowInfo "Please select at least one tweak to apply."]) ∧
  (ThreadStart ∉ run.2) ∧ execs run.2 = [] ∧ saves run.2 = [] ∧
  _applied run.1.2 = _applied s ∧ backup_file run.1.2 = backup_file s.
Proof.
  intros Hsel run.
  assert (Hrun : run = (Returns tt, s,
                        [ShowInfo "Please select at least one tweak to apply."])).
  { subst run. unfold _on_apply, mbind, M_bind, bind, gets, lift. by rewrite Hsel. }
  rewrite Hrun. cbn [fst snd]. repeat split; try done.
  by intros [= ]%list_elem_of_singleton.
Qed.
End properties.

(** ** Concrete runs *)

(** The scenario of the design document: applying [A], [B], [C] without
    privilege records [Applied], [SkippedPrivilege], [Applied], and the
    file then holds [A] and [C]. *)
Example scenario_apply :
  let R := [Scenario.A; Scenario.B; Scenario.C] in
  let s := Scenario.start false ∅ ∅ [] in
  apply_outcomes Scenario.run_powershell false R [] = [Applied; SkippedPrivilege; Applied] ∧
  backup_file (_apply_worker Scenario.run_powershell Scenario.now R s).1.2
  = File (Json (JDict [("applied", JList [JStr "A"; JStr "C"]);
                       ("last_modified", JStr "2024-05-01T12:00:00")])).
Proof. split; vm_compute; reflexivity. Qed.

(** C1, where the claim as stated fails: the tweak is applied, the write
    of the file fails on [open], and nothing is persisted. *)
Lemma apply_persisted_counterexample :
  apply_outcomes Scenario.run_powershell true [Scenario.A] [] = [Applied] ∧
  persisted (_apply_worker Scenario.run_powershell Scenario.now [Scenario.A]
               (Scenario.start true ∅ ∅ [OpenFails])).1.2
  = Returns ∅ ∧
  persisted (_apply_worker Scenario.run_powershell Scenario.now [Scenario.A]
               (Scenario.start true ∅ ∅ [OpenFails])).1.2
  ≠ Returns (as_keys (∅ ∪ list_to_set
               (ids_with Applied [Scenario.A]
                  (apply_outcomes Scenario.run_powershell true [Scenario.A] [])))).
Proof.
  assert (Hp : persisted (_apply_worker Scenario.run_powershell Scenario.now [Scenario.A]
                            (Scenario.start true ∅ ∅ [OpenFails])).1.2
               = Returns ∅) by (vm_compute; reflexivity).
  split; [reflexivity|]. split; [done|].
  rewrite Hp. intros Heq. apply (f_equal (from_result ∅)) in Heq. cbn [from_result] in Heq.
  assert (Hin : KStr "A" ∈ (∅ : gset pykey)); [|set_solver].
  rewrite Heq. unfold as_keys. apply elem_of_map. exists "A". split; [done|].
  apply elem_of_union. right. apply elem_of_list_to_set.
  change (ids_with Applied _ _) with ["A"]. apply list_elem_of_here.
Qed.

(** C2, where the claim as stated fails: the tweak is restored, the write
    of the file breaks off half-way, and what is persisted loads as the
    empty set instead of the set without the restored id. *)
Lemma restore_persisted_counterexample :
  restore_outcomes Scenario.run_powershell true [Scenario.A] [] = [Restored] ∧
  persisted (_restore_worker Scenario.run_powershell Scenario.now [Scenario.A]
               (Scenario.start true {["A"; "C"]} ∅ [WriteFails])).1.2
  = Returns ∅ ∧
  persisted (_restore_worker Scenario.run_powershell Scenario.now [Scenario.A]
               (Scenario.start true {["A"; "C"]} ∅ [WriteFails])).1.2
  ≠ Returns (as_keys ({["A"; "C"]} ∖ list_to_set
               (ids_with Restored [Scenario.A]
                  (restore_outcomes Scenario.run_powershell true [Scenario.A] [])))).
Proof.
  assert (Hp : persisted (_restore_worker Scenario.run_powershell Scenario.now [Scenario.A]
                            (Scenario.start true {["A"; "C"]} ∅ [WriteFails])).1.2
               = Returns ∅) by (vm_compute; reflexivity).
  split; [reflexivity|]. split; [done|].
  rewrite Hp. intros Heq. apply (f_equal (from_result ∅)) in Heq. cbn [from_result] in Heq.
  assert (Hin : KStr "C" ∈ (∅ : gset pykey)); [|set_solver].
  rewrite Heq. unfold as_keys. apply elem_of_map. exists "C". split; [done|].
  apply elem_of_difference. split; [set_solver|].
  rewrite elem_of_list_to_set.
  change (ids_with Restored _ _) with ["A"].
  by intros [= ]%list_elem_of_singleton.
Qed.

(** C8, where the claim as stated fails: one batch whose write fails on
    [mkdir], so that nothing reaches the disk, and the same batch with a
    successful write; [save_applied_tweaks] returns the same in both, and
    so does all the engine gets to see. *)
Lemma write_failure_unreported_counterexample :
  backup_file (_apply_worker Scenario.run_powershell Scenario.now [Scenario.A]
                 (Scenario.start true ∅ ∅ [MkdirFails])).1.2
  = Missing ∧
  backup_file (_apply_worker Scenario.run_powershell Scenario.now [Scenario.A]
                 (Scenario.start true ∅ ∅ [NoFault])).1.2
  = File (Json (JDict [("applied", JList [JStr "A"]);
                       ("last_modified", JStr "2024-05-01T12:00:00")])) ∧
  (save_applied_tweaks {["A"]} "2024-05-01T12:00:00" MkdirFails Missing).1
  = (save_applied_tweaks {["A"]} "2024-05-01T12:00:00" NoFault Missing).1 ∧
  engine_view (_apply_worker Scenario.run_powershell Scenario.now [Scenario.A]
                 (Scenario.start true ∅ ∅ [MkdirFails]))
  = engine_view (_apply_worker Scenario.run_powershell Scenario.now [Scenario.A]
                   (Scenario.start true ∅ ∅ [NoFault])).
Proof. repeat split; vm_compute; reflexivity. Qed.

(** C9, where the claim as stated fails: the batch makes its one call
    of [save_applied_tweaks], the write fails on [mkdir], and the durable
    state is not written at all: the file is as missing after the batch as
    it was before. *)
Lemma durable_write_counterexample :
  saves (_apply_worker Scenario.run_powershell Scenario.now [Scenario.A]
           (Scenario.start true ∅ ∅ [MkdirFails])).2
  = [{["A"]}] ∧
  backup_file (Scenario.start true ∅ ∅ [MkdirFails]) = Missing ∧
  backup_file (_apply_worker Scenario.run_powershell Scenario.now [Scenario.A]
                 (Scenario.start true ∅ ∅ [MkdirFails])).1.2
  = Missing ∧
  (∀ ts, backup_file (_apply_worker Scenario.run_powershell Scenario.now [Scenario.A]
                        (Scenario.start true ∅ ∅ [MkdirFails])).1.2
         ≠ File (Json (record {["A"]} ts))).
Proof.
  assert (Hfile : backup_file (_apply_worker Scenario.run_powershell Scenario.now
                                 [Scenario.A] (Scenario.start true ∅ ∅ [MkdirFails])).1.2
                  = Missing) by (vm_compute; reflexivity).
  split; [vm_compute; reflexivity|]. split; [reflexivity|]. split; [exact Hfile|].
  intros ts. by rewrite Hfile.
Qed.

(** ** The theorems at concrete inputs *)

Lemma apply_updates_applied_set_witness :
  default NoFault (head (io (Scenario.start false {["Z"]} ∅ []))) = NoFault ∧
  NoDup (id <$> Scenario.registry) ∧
  persisted (_apply_worker Scenario.run_powershell Scenario.now Scenario.registry
               (Scenario.start false {["Z"]} ∅ [])).1.2
  = Returns (as_keys ({["Z"]} ∪ list_to_set
               (ids_with Applied Scenario.registry
                  (apply_outcomes Scenario.run_powershell false Scenario.registry [])))) ∧
  ("B" ∈ ({["Z"]} ∪ list_to_set
            (ids_with Applied Scenario.registry
               (apply_outcomes Scenario.run_powershell false Scenario.registry []))
          : gset string)
   ↔ "B" ∈ ({["Z"]} : gset string)).
Proof.
  destruct (apply_updates_applied_set Scenario.run_powershell Scenario.now
              Scenario.registry (Scenario.start false {["Z"]} ∅ []))
    as (_ & _ & _ & Hp & _ & Hk).
  split; [reflexivity|]. split; [compute_done|]. split; [apply Hp; reflexivity|].
  apply (Hk ltac:(compute_done) 1 Scenario.B SkippedPrivilege);
    [reflexivity|reflexivity|discriminate].
Defined.

Lemma restore_updates_applied_set_witness :
  Forall (λ t, is_Some (restore_cmd t)) [Scenario.A; Scenario.D] ∧
  default NoFault (head (io (Scenario.start true {["A"; "C"; "D"]} ∅ []))) = NoFault ∧
  NoDup (id <$> [Scenario.A; Scenario.D]) ∧
  persisted (_restore_worker Scenario.run_powershell Scenario.now [Scenario.A; Scenario.D]
               (Scenario.start true {["A"; "C"; "D"]} ∅ [])).1.2
  = Returns (as_keys ({["A"; "C"; "D"]} ∖ list_to_set
               (ids_with Restored [Scenario.A; Scenario.D]
                  (restore_outcomes Scenario.run_powershell true
                     [Scenario.A; Scenario.D] [])))) ∧
  ("D" ∈ ({["A"; "C"; "D"]} ∖ list_to_set
            (ids_with Restored [Scenario.A; Scenario.D]
               (restore_outcomes Scenario.run_powershell true [Scenario.A; Scenario.D] []))
          : gset string)
   ↔ "D" ∈ ({["A"; "C"; "D"]} : gset string)).
Proof.
  assert (HR : Forall (λ t, is_Some (restore_cmd t)) [Scenario.A; Scenario.D]).
  { repeat constructor; by eexists. }
  destruct (restore_updates_applied_set Scenario.run_powershell Scenario.now
              [Scenario.A; Scenario.D] (Scenario.start true {["A"; "C"; "D"]} ∅ []) HR)
    as (_ & _ & _ & Hp & _ & Hk).
  split; [exact HR|]. split; [reflexivity|]. split; [compute_done|].
  split; [apply Hp; reflexivity|].
  apply (Hk ltac:(compute_done) 1 Scenario.D (Failed "denied"));
    [reflexivity|reflexivity|discriminate].
Defined.

Lemma privileged_tweak_skipped_witness :
  admin Scenario.B = true ∧
  _admin (Scenario.start false ∅ ∅ []) = false ∧
  NoDup (id <$> Scenario.registry) ∧
  Scenario.B ∈ Scenario.registry ∧
  apply_outcomes Scenario.run_powershell false Scenario.registry [] !! 1
  = Some SkippedPrivilege ∧
  ("B" ∈ _applied (_apply_worker Scenario.run_powershell Scenario.now Scenario.registry
                     (Scenario.start false ∅ ∅ [])).1.2
   ↔ "B" ∈ (∅ : gset string)).
Proof.
  destruct (privileged_tweak_skipped Scenario.run_powershell Scenario.now
              Scenario.B (Scenario.start false ∅ ∅ []) eq_refl eq_refl)
    as (_ & _ & _ & Happly & _).
  destruct (Happly Scenario.registry) as (_ & Hk & Hin).
  assert (Hnd : NoDup (id <$> Scenario.registry)) by compute_done.
  assert (HB : Scenario.B ∈ Scenario.registry) by (apply list_elem_of_further, list_elem_of_here).
  split; [reflexivity|]. split; [reflexivity|]. split; [exact Hnd|]. split; [exact HB|].
  split; [by apply Hk|by apply Hin].
Defined.

Lemma plan_partitions_applied_witness :
  "Z" ∈ ({["A"; "C"; "Z"]} : gset string) ∧
  ("Z" ∉ (id <$> Scenario.registry)) ∧
  ("Z" ∉ (id <$> restorable {["A"; "C"; "Z"]} Scenario.registry)) ∧
  ("Z" ∉ (id <$> irreversible {["A"; "C"; "Z"]} Scenario.registry)).
Proof.
  assert (Hin : "Z" ∈ ({["A"; "C"; "Z"]} : gset string)) by set_solver.
  assert (Hout : "Z" ∉ (id <$> Scenario.registry)) by compute_done.
  destruct (plan_partitions_applied Scenario.run_powershell Scenario.now
              {["A"; "C"; "Z"]} Scenario.registry (Scenario.start true ∅ ∅ []))
    as (_ & _ & _ & _ & _ & _ & _ & Hstale & _).
  split; [exact Hin|]. split; [exact Hout|]. by apply Hstale.
Defined.

Lemma save_load_roundtrip_witness :
  elements ({["b"; "a"]} : gset string) ≡ₚ elements ({["b"; "a"]} : gset string) ∧
  load_applied_tweaks (save_applied_tweaks {["b"; "a"]} "2024-05-01T12:00:00" NoFault Missing).2
  = Returns (as_keys {["b"; "a"]}).
Proof.
  split; [reflexivity|].
  apply (save_load_roundtrip {["b"; "a"]} "2024-05-01T12:00:00" "2024-05-01T12:00:01" Missing).
Defined.

Lemma write_failure_is_silent_witness :
  Forall (λ t, is_Some (restore_cmd t)) [Scenario.A; Scenario.D] ∧
  engine_view (_restore_worker Scenario.run_powershell Scenario.now [Scenario.A; Scenario.D]
                 (set_disk Missing [WriteFails] (Scenario.start true {["A"; "D"]} ∅ [])))
  = engine_view (_restore_worker Scenario.run_powershell Scenario.now [Scenario.A; Scenario.D]
                   (set_disk Missing [NoFault] (Scenario.start true {["A"; "D"]} ∅ []))).
Proof.
  assert (HR : Forall (λ t, is_Some (restore_cmd t)) [Scenario.A; Scenario.D]).
  { repeat constructor; by eexists. }
  split; [exact HR|].
  destruct (write_failure_is_silent Scenario.run_powershell Scenario.now
              [Scenario.A; Scenario.D] (Scenario.start true {["A"; "D"]} ∅ [])
              [WriteFails] [NoFault])
    as (_ & _ & _ & _ & Hrestore).
  by destruct (Hrestore HR) as [Heq _].
Defined.

Lemma save_once_after_all_tweaks_witness :
  Forall (λ t, is_Some (restore_cmd t)) [Scenario.A; Scenario.D] ∧
  default NoFault (head (io (Scenario.start true {["A"; "D"]} ∅ []))) = NoFault ∧
  length (saves (_restore_worker Scenario.run_powershell Scenario.now [Scenario.A; Scenario.D]
                   (Scenario.start true {["A"; "D"]} ∅ [])).2) = 1 ∧
  persisted (_restore_worker Scenario.run_powershell Scenario.now [Scenario.A; Scenario.D]
               (Scenario.start true {["A"; "D"]} ∅ [])).1.2
  = Returns (as_keys (_applied
      (_restore_worker Scenario.run_powershell Scenario.now [Scenario.A; Scenario.D]
         (Scenario.start true {["A"; "D"]} ∅ [])).1.2)).
Proof.
  assert (HR : Forall (λ t, is_Some (restore_cmd t)) [Scenario.A; Scenario.D]).
  { repeat constructor; by eexists. }
  split; [exact HR|]. split; [reflexivity|].
  destruct (save_once_after_all_tweaks Scenario.run_powershell Scenario.now
              [Scenario.A; Scenario.D] (Scenario.start true {["A"; "D"]} ∅ []))
    as (_ & _ & _ & _ & Hrestore).
  destruct (Hrestore HR) as (_ & Hone & _ & _ & Hfile & _).
  split; [exact Hone|]. by destruct (Hfile eq_refl) as [_ Hload].
Defined.

Lemma empty_selection_starts_no_batch_witness :
  select Scenario.unchecked Scenario.registry = Returns [] ∧
  _on_apply Scenario.run_powershell Scenario.now Scenario.registry
    (Scenario.start true {["A"]} Scenario.unchecked [])
  = (Returns tt, Scenario.start true {["A"]} Scenario.unchecked [],
     [ShowInfo "Please select at least one tweak to apply."]).
Proof.
  assert (Hsel : select Scenario.unchecked Scenario.registry = Returns [])
    by (vm_compute; reflexivity).
  split; [exact Hsel|].
  by destruct (empty_selection_starts_no_batch Scenario.run_powershell Scenario.now
                 Scenario.registry (Scenario.start true {["A"]} Scenario.unchecked []) Hsel)
    as [Hrun _].
Defined.

(** A string in place of the id array is taken apart character by
    character, a character of several bytes staying whole. *)
Example load_string_of_two_characters :
  chars "aé" = ["a"; "é"] ∧
  load_applied_tweaks (File (Json (JDict [("applied", JStr "éé")])))
  = Returns {[KStr "é"]}.
Proof. split; [reflexivity|]. vm_compute. reflexivity. Qed.

(** * Further properties *)

(** ** Loading *)

(** X1: a missing file, a file that cannot be opened or read, a text that
    is not JSON and a JSON object without the key ["applied"] all load as
    the empty set. *)
Theorem load_empty_when_absent_or_garbled :
  load_applied_tweaks Missing = Returns ∅ ∧
  load_applied_tweaks Unreadable = Returns ∅ ∧
  load_applied_tweaks (File NotJson) = Returns ∅ ∧
  (∀ items, assoc "applied" items = None →
     load_applied_tweaks (File (Json (JDict items))) = Returns ∅).
Proof.
  repeat split; try reflexivity.
  intros items Hnone. apply load_empty_cases. right; right; right. by exists items.
Qed.

(** X2: an object whose ["applied"] entry is a list of strings loads as
    the set of those strings, whatever their order, however often they
    occur and whatever other entries the object has. *)
Theorem load_list_of_strings (items : list (string * json)) (ids : list string) :
  assoc "applied" items = Some (JList (JStr <$> ids)) →
  load_applied_tweaks (File (Json (JDict items))) = Returns (list_to_set (KStr <$> ids)).
Proof.
  intros Hids. unfold load_applied_tweaks, load_try. simpl. rewrite Hids. simpl.
  by rewrite mapM_hashable_strings.
Qed.

(** ** Check boxes *)

Lemma select_all_present (vars : gmap string bool) (TWEAKS : list tweak) :
  Forall (λ t, is_Some (vars !! id t)) TWEAKS →
  select vars TWEAKS = Returns (filter (checked vars) TWEAKS).
Proof.
  induction 1 as [|t TWEAKS [b Hb] _ IH]; [done|].
  simpl. rewrite Hb, IH. simpl. rewrite filter_cons.
  destruct b; case_decide as Hc; try done; unfold checked in Hc; congruence.
Qed.

Lemma select_KeyError (vars : gmap string bool) (TWEAKS : list tweak) :
  ¬ Forall (λ t, is_Some (vars !! id t)) TWEAKS →
  select vars TWEAKS = Raises KeyError.
Proof.
  induction TWEAKS as [|t TWEAKS IH]; intros Hnot.
  { destruct Hnot. constructor. }
  simpl. destruct (vars !! id t) as [b|] eqn:Hb; [|done].
  rewrite IH; [done|]. intros Hall. apply Hnot. constructor; [by rewrite Hb|done].
Qed.

(** X3: the selection [_on_apply] computes is the registry filtered by
    the ticked check boxes, in registry order, when every registry id has
    a check box, and a [KeyError] as soon as one has none. *)
Theorem select_is_filter_or_KeyError (vars : gmap string bool) (TWEAKS : list tweak) :
  select vars TWEAKS
  = if decide (Forall (λ t, is_Some (vars !! id t)) TWEAKS)
    then Returns (filter (checked vars) TWEAKS)
    else Raises KeyError.
Proof.
  case_decide; [by apply select_all_present|by apply select_KeyError].
Qed.

Lemma by_cat_init_lookup (cat : string) :
  by_cat_init !! cat = if decide (cat ∈ CATEGORIES) then Some [] else None.
Proof.
  unfold by_cat_init. case_decide as Hcat.
  - apply elem_of_list_to_map_1; [compute_done|].
    apply list_elem_of_fmap. by exists cat.
  - apply not_elem_of_list_to_map_1. by rewrite <- list_fmap_compose, list_fmap_id.
Qed.

Lemma by_cat_fill_Returns (TWEAKS : list tweak) : ∀ m : gmap string (list tweak),
  Forall (λ t, is_Some (m !! category t)) TWEAKS →
  ∃ m', by_cat_fill TWEAKS m = Returns m' ∧
        ∀ cat, m' !! cat
               = (λ l, l ++ filter (λ t, category t = cat) TWEAKS) <$> m !! cat.
Proof.
  induction TWEAKS as [|t TWEAKS IH]; intros m Hall.
  { exists m. split; [done|]. intros cat. destruct (m !! cat); simpl; [|done].
    by rewrite app_nil_r. }
  apply Forall_cons_1 in Hall as [[l Hl] Hall]. simpl. rewrite Hl.
  destruct (IH (<[category t := l ++ [t]]> m)) as (m' & Hfill & Hm').
  { eapply Forall_impl; [exact Hall|]. intros t' Ht'. cbn beta in *.
    rewrite lookup_insert. by case_decide. }
  exists m'. split; [done|]. intros cat. rewrite Hm', lookup_insert, filter_cons.
  case_decide as Hcat.
  - subst cat. rewrite Hl. simpl. by rewrite <- app_assoc.
  - done.
Qed.

Lemma by_cat_fill_KeyError (TWEAKS : list tweak) : ∀ m : gmap string (list tweak),
  ¬ Forall (λ t, is_Some (m !! category t)) TWEAKS →
  by_cat_fill TWEAKS m = Raises KeyError.
Proof.
  induction TWEAKS as [|t TWEAKS IH]; intros m Hnot.
  { destruct Hnot. constructor. }
  simpl. destruct (m !! category t) as [l|] eqn:Hl; [|done].
  apply IH. intros Hall. apply Hnot. constructor; [by rewrite Hl|].
  eapply Forall_impl; [exact Hall|]. intros t' Ht'. cbn beta in *.
  rewrite lookup_insert in Ht'. case_decide as Hc; [|done]. by rewrite <- Hc, Hl.
Qed.

(** Grouping a list by the values of a duplicate-free list of keys that
    covers it rearranges the list. *)
Lemma concat_groups_Permutation (cats : list string) : ∀ l : list tweak,
  NoDup cats → Forall (λ t, category t ∈ cats) l →
  concat ((λ cat, filter (λ t, category t = cat) l) <$> cats) ≡ₚ l.
Proof.
  induction cats as [|c cats IH]; intros l Hnd Hall.
  { destruct l as [|t l]; [done|]. apply Forall_cons_1 in Hall as [Ht _]. by apply elem_of_nil in Ht. }
  apply NoDup_cons in Hnd as [Hc Hnd]. rewrite fmap_cons. cbn [concat].
  transitivity (filter (λ t, category t = c) l ++ filter (λ t, ¬ category t = c) l);
    [|apply filter_app_complement].
  apply Permutation_app; [done|].
  rewrite <- (IH (filter (λ t, ¬ category t = c) l) Hnd).
  - apply reflexive_eq. f_equal. apply list_fmap_ext. intros k cat Hk.
    rewrite list_filter_filter. apply list_filter_iff. intros t. split; [|tauto].
    intros ->. split; [done|]. intros ->. apply Hc. by eapply list_elem_of_lookup_2.
  - apply Forall_forall. intros t [Hne Ht]%list_elem_of_filter.
    rewrite Forall_forall in Hall. specialize (Hall t Ht).
    apply elem_of_cons in Hall as [?|?]; [congruence|done].
Qed.

Lemma by_cat_init_keys (t : tweak) :
  is_Some (by_cat_init !! category t) ↔ category t ∈ CATEGORIES.
Proof.
  rewrite by_cat_init_lookup. case_decide; [by split; eauto|].
  split; [by intros [? ?]|done].
Qed.

Lemma by_cat_fill_registry (TWEAKS : list tweak) :
  Forall (λ t, category t ∈ CATEGORIES) TWEAKS →
  ∃ by_cat, by_cat_fill TWEAKS by_cat_init = Returns by_cat ∧
    cards by_cat
    = concat ((λ cat, filter (λ t, category t = cat) TWEAKS) <$> CATEGORIES) ∧
    cards by_cat ≡ₚ TWEAKS.
Proof.
  intros Hall.
  destruct (by_cat_fill_Returns TWEAKS by_cat_init) as (by_cat & Hfill & Hlookup).
  { eapply Forall_impl; [exact Hall|]. intros t Ht. by apply by_cat_init_keys. }
  assert (Hcards : cards by_cat
    = concat ((λ cat, filter (λ t, category t = cat) TWEAKS) <$> CATEGORIES)).
  { unfold cards. f_equal. apply list_fmap_ext. intros k cat Hk.
    rewrite Hlookup, by_cat_init_lookup.
    rewrite decide_True by (by eapply list_elem_of_lookup_2). done. }
  exists by_cat. split; [done|]. split; [done|].
  rewrite Hcards. apply concat_groups_Permutation; [compute_done|done].
Qed.

(** X4: when every category of the registry is one of [CATEGORIES], the
    cards are made category by category in the order of [CATEGORIES] and,
    within a category, in registry order; every tweak gets exactly one
    card.  With a category that is not in [CATEGORIES] the grouping stops
    with a [KeyError]. *)
Theorem cards_grouped_by_category (TWEAKS : list tweak) (vars : gmap string bool) :
  (Forall (λ t, category t ∈ CATEGORIES) TWEAKS →
     ∃ by_cat, by_cat_fill TWEAKS by_cat_init = Returns by_cat ∧
       cards by_cat
       = concat ((λ cat, filter (λ t, category t = cat) TWEAKS) <$> CATEGORIES) ∧
       cards by_cat ≡ₚ TWEAKS) ∧
  (¬ Forall (λ t, category t ∈ CATEGORIES) TWEAKS →
     by_cat_fill TWEAKS by_cat_init = Raises KeyError ∧
     build_vars TWEAKS vars = Raises KeyError).
Proof.
  split; [apply by_cat_fill_registry|].
  intros Hnot.
  assert (Hfill : by_cat_fill TWEAKS by_cat_init = Raises KeyError).
  { apply by_cat_fill_KeyError. intros Hall. apply Hnot.
    eapply Forall_impl; [exact Hall|]. intros t Ht. by apply by_cat_init_keys. }
  split; [done|]. unfold build_vars. by rewrite Hfill.
Qed.

Lemma build_vars_lookup (l : list tweak) : ∀ (vars : gmap string bool) (i : string),
  foldl (λ v tweak, <[id tweak := false]> v) vars l !! i
  = if decide (i ∈ (id <$> l)) then Some false else vars !! i.
Proof.
  induction l as [|t l IH]; intros vars i; cbn [foldl].
  { rewrite decide_False; [done|]. apply not_elem_of_nil. }
  rewrite IH, fmap_cons. case_decide as Hl.
  - rewrite decide_True; [done|]. by apply elem_of_cons; right.
  - rewrite lookup_insert. case_decide as Hid.
    + rewrite decide_True; [done|]. apply elem_of_cons. by left.
    + rewrite decide_False; [done|]. intros [?|?]%elem_of_cons; congruence.
Qed.

Lemma select_none_checked (vars : gmap string bool) (TWEAKS : list tweak) :
  Forall (λ t, vars !! id t = Some false) TWEAKS → select vars TWEAKS = Returns [].
Proof.
  intros Hall. rewrite select_all_present.
  - f_equal. induction Hall as [|t TWEAKS Ht _ IH]; [done|].
    rewrite filter_cons_False; [done|]. unfold checked. by rewrite Ht.
  - eapply Forall_impl; [exact Hall|]. intros t ->. eauto.
Qed.

(** X5: in a window just built over a registry whose categories are all
    known, every registry id has a check box and none is ticked: the
    selection is empty and computing it raises no [KeyError]. *)
Theorem fresh_window_selects_nothing (TWEAKS : list tweak) :
  Forall (λ t, category t ∈ CATEGORIES) TWEAKS →
  ∃ vars, build_vars TWEAKS ∅ = Returns vars ∧
    (∀ i, vars !! i = if decide (i ∈ (id <$> TWEAKS)) then Some false else None) ∧
    select vars TWEAKS = Returns [].
Proof.
  intros Hall.
  destruct (by_cat_fill_registry TWEAKS Hall) as (by_cat & Hfill & _ & Hperm).
  unfold build_vars. rewrite Hfill. cbn [result_bind]. eexists. split; [done|].
  assert (Hlookup : ∀ i,
    foldl (λ v tweak, <[id tweak := false]> v) (∅ : gmap string bool) (cards by_cat) !! i
    = if decide (i ∈ (id <$> TWEAKS)) then Some false else None).
  { intros i. rewrite build_vars_lookup, lookup_empty.
    apply decide_ext. by rewrite Hperm. }
  split; [done|]. apply select_none_checked, Forall_forall. intros t Ht.
  rewrite Hlookup, decide_True; [done|]. apply list_elem_of_fmap. by exists t.
Qed.

(** X6: the select-all box sets every check box to its own value and
    nothing else: when every registry id has a check box, the selection
    afterwards is the whole registry if the box is ticked and empty if it
    is not. *)
Theorem toggle_all_selects_all_or_none {Sys} (value : bool) (TWEAKS : list tweak)
    (s : state Sys) :
  Forall (λ t, is_Some (_vars s !! id t)) TWEAKS →
  _toggle_all value s = (Returns tt, set_vars ((λ _, value) <$> _vars s) s, []) ∧
  dom ((λ _ : bool, value) <$> _vars s) = dom (_vars s) ∧
  select (_vars (_toggle_all value s).1.2) TWEAKS
  = Returns (if value then TWEAKS else []).
Proof.
  intros Hall. split; [done|]. split; [apply dom_fmap_L|].
  cbn [_toggle_all modify fst snd set_vars _vars].
  assert (Hlookup : ∀ t, t ∈ TWEAKS →
            ((λ _ : bool, value) <$> _vars s) !! id t = Some value).
  { intros t Ht. rewrite Forall_forall in Hall. destruct (Hall t Ht) as [b Hb].
    by rewrite lookup_fmap, Hb. }
  rewrite select_all_present.
  - f_equal. destruct value.
    + clear Hall. induction TWEAKS as [|t TWEAKS IH]; [done|].
      rewrite filter_cons_True.
      * f_equal. apply IH. intros t' Ht'. apply Hlookup. by right.
      * apply Hlookup. by left.
    + clear Hall. induction TWEAKS as [|t TWEAKS IH]; [done|].
      rewrite filter_cons_False.
      * apply IH. intros t' Ht'. apply Hlookup. by right.
      * unfold checked. rewrite Hlookup by (by left). done.
  - apply Forall_forall. intros t Ht. rewrite Hlookup by done. eauto.
Qed.

(** X7: the window is centred with floor division: the offset leaves, to
    the right or below, the same margin as to the left or above or one
    pixel more, and it is negative exactly when the window is larger than
    the screen. *)
Theorem center_offset_margins (screen size : Z) :
  (0 ≤ (screen - size - center_offset screen size) - center_offset screen size ≤ 1)%Z ∧
  (0 ≤ center_offset screen size ↔ size ≤ screen)%Z.
Proof.
  unfold center_offset.
  pose proof (Z.div_mod (screen - size) 2 ltac:(lia)) as Hdm.
  pose proof (Z.mod_pos_bound (screen - size) 2 ltac:(lia)) as Hm.
  split; [lia|]. split; intros H; [lia|]. apply Z.div_pos; lia.
Qed.

(** ** Batches, tweak by tweak *)

Section batches.
Context {Sys : Type}.
Context (run_powershell : string → Sys → bool * string * Sys).
Context (now : Sys → string).

Implicit Types (s : state Sys) (R : list tweak) (t : tweak) (o : outcome).

Lemma apply_loop_trace R : ∀ (na sk : list string) s,
  (for_each R (apply_body run_powershell) (na, sk) s).2
  = concat (zip_with apply_segment R
              (apply_outcomes run_powershell (_admin s) R (machine s))).
Proof.
  induction R as [|t R IH]; intros na sk s; [done|].
  rewrite for_each_cons. unfold apply_outcomes in *. cbn [outcomes].
  destruct (permitted (_admin s) t) eqn:Hgate.
  - destruct (run_powershell (apply_cmd t) (machine s)) as [[ok output] m] eqn:Hrun.
    rewrite (apply_body_run _ _ _ _ _ _ _ _ Hgate Hrun).
    specialize (IH (if ok then na ++ [id t] else na) sk (set_machine m s)).
    cbn [_admin machine set_machine] in IH.
    destruct ok;
      destruct (for_each R _ _ _) as [[r s2] tr2];
      cbn [snd] in *; subst tr2; done.
  - rewrite (apply_body_skip _ _ _ _ _ Hgate).
    specialize (IH na (sk ++ [name t]) s).
    destruct (for_each R _ _ _) as [[r s2] tr2].
    cbn [snd] in *. by subst tr2.
Qed.

Lemma restore_loop_trace R :
  Forall (λ t, is_Some (restore_cmd t)) R →
  ∀ (restored : list string) s,
  (for_each R (restore_body run_powershell) restored s).2
  = concat (zip_with restore_segment R
              (restore_outcomes run_powershell (_admin s) R (machine s))).
Proof.
  induction 1 as [|t R [c Hcmd] _ IH]; intros restored s; [done|].
  rewrite for_each_cons. unfold restore_outcomes in *. cbn [outcomes].
  destruct (permitted (_admin s) t) eqn:Hgate.
  - rewrite Hcmd.
    destruct (run_powershell c (machine s)) as [[ok output] m] eqn:Hrun.
    rewrite (restore_body_run _ _ _ _ _ _ _ _ Hgate Hcmd Hrun).
    specialize (IH (if ok then restored ++ [id t] else restored) (set_machine m s)).
    cbn [_admin machine set_machine] in IH.
    destruct ok;
      destruct (for_each R _ _ _) as [[r s2] tr2];
      cbn [snd] in *; subst tr2; cbn [zip_with concat restore_segment];
      by rewrite Hcmd.
  - rewrite (restore_body_skip _ _ _ _ Hgate).
    specialize (IH restored s).
    destruct (for_each R _ _ _) as [[r s2] tr2].
    cbn [snd] in *. by subst tr2.
Qed.

(** The trace of [_apply_worker] around the trace of its loop. *)
Lemma apply_worker_trace R s :
  let outs := apply_outcomes run_powershell (_admin s) R (machine s) in
  (_apply_worker run_powershell now R s).2
  = SetBusy true
    :: Log ("── Applying " +:+ pretty (length R)
            +:+ " tweak(s) ──────────────────") THeading
    :: concat (zip_with apply_segment R outs)
    ++ Save (_applied s ∪ list_to_set (ids_with Applied R outs))
    :: apply_epilogue R (ids_with Applied R outs)
         (name <$> filter (λ t, permitted (_admin s) t = false) R).
Proof.
  intros outs.
  destruct (apply_loop run_powershell R (_admin s) (machine s))
    as (tr & m & Hloop & _).
  pose proof (apply_loop_trace R [] [] s) as Htr.
  rewrite (Hloop [] [] s eq_refl eq_refl) in Htr. cbn [snd] in Htr. subst tr.
  unfold _apply_worker, mbind, M_bind, bind at 1 2.
  cbn [emit _log_heading _log_write app].
  unfold bind at 1. rewrite Hloop by done. cbn [app fst snd].
  unfold bind at 1 2, modify, gets. cbn [set_applied _applied].
  unfold bind at 1. rewrite save_run.
  unfold bind, _log_heading, _log_write, emit, mret, M_ret, ret.
  cbn [set_applied set_machine set_disk _admin _applied _vars machine
       backup_file io answers app fst snd].
  unfold apply_epilogue.
  by destruct (name <$> filter (λ t, permitted (_admin s) t = false) R).
Qed.

(** The trace of [_restore_worker] around the trace of its loop. *)
Lemma restore_worker_trace R s :
  Forall (λ t, is_Some (restore_cmd t)) R →
  let outs := restore_outcomes run_powershell (_admin s) R (machine s) in
  (_restore_worker run_powershell now R s).2
  = SetBusy true
    :: Log ("── Restoring " +:+ pretty (length R)
            +:+ " tweak(s) ─────────────────") THeading
    :: concat (zip_with restore_segment R outs)
    ++ [Save (_applied s ∖ list_to_set (ids_with Restored R outs));
        Log ("── Done: " +:+ pretty (length (ids_with Restored R outs)) +:+ "/"
             +:+ pretty (length R) +:+ " restored ──────────────") THeading;
        SetBusy false].
Proof.
  intros HR outs.
  destruct (restore_loop run_powershell R (_admin s) HR (machine s))
    as (tr & m & Hloop & _).
  pose proof (restore_loop_trace R HR [] s) as Htr.
  rewrite (Hloop [] s eq_refl eq_refl) in Htr. cbn [snd] in Htr. subst tr.
  unfold _restore_worker, mbind, M_bind, bind at 1 2.
  cbn [emit _log_heading _log_write app].
  unfold bind at 1. rewrite Hloop by done. cbn [app fst snd].
  unfold bind at 1 2, modify, gets. cbn [set_applied _applied].
  unfold bind at 1. rewrite save_run.
  unfold bind, _log_heading, _log_write, emit, mret, M_ret, ret.
  cbn [set_applied set_machine set_disk _admin _applied _vars machine
       backup_file io answers app fst snd].
  by rewrite discard_all_difference.
Qed.

(** X8: the trace of an apply batch, in full: busy on, the heading with
    the number of requested tweaks, then for each requested tweak in order
    either its skip line or its announcement, its executor call and its
    result line, then the one save of the updated set, the summary, the
    warning dialog if a tweak was skipped, and busy off. *)
Theorem apply_trace_tweak_by_tweak R s :
  let outs := apply_outcomes run_powershell (_admin s) R (machine s) in
  let skipped := name <$> filter (λ t, permitted (_admin s) t = false) R in
  (_apply_worker run_powershell now R s).2
  = [SetBusy true;
     Log ("── Applying " +:+ pretty (length R)
          +:+ " tweak(s) ──────────────────") THeading]
    ++ concat (zip_with apply_segment R outs)
    ++ [Save (_applied s ∪ list_to_set (ids_with Applied R outs));
        Log (apply_summary R (ids_with Applied R outs) skipped) THeading]
    ++ match skipped with
       | [] => []
       | _ :: _ => [ShowWarning (skipped_warning skipped)]
       end
    ++ [SetBusy false].
Proof. intros outs skipped. by rewrite apply_worker_trace. Qed.

Lemma ids_with_length o R : ∀ outs : list outcome,
  length outs = length R →
  length (ids_with o R outs) = length (filter (λ o', o' = o) outs).
Proof.
  induction R as [|t R IH]; intros [|x outs] Hlen; try done.
  rewrite ids_with_cons, length_app, filter_cons, IH by (simpl in Hlen; lia).
  by case_decide.
Qed.

(** X9: the trace of a restore batch over tweaks that have a restore
    command, in full: busy on, the heading, then for each tweak in order
    either its skip line or its announcement, the executor call with its
    restore command and its result line, then the one save of the reduced
    set, the line with the number restored out of the number given, and
    busy off. *)
Theorem restore_trace_tweak_by_tweak R s :
  Forall (λ t, is_Some (restore_cmd t)) R →
  let outs := restore_outcomes run_powershell (_admin s) R (machine s) in
  (_restore_worker run_powershell now R s).2
  = [SetBusy true;
     Log ("── Restoring " +:+ pretty (length R)
          +:+ " tweak(s) ─────────────────") THeading]
    ++ concat (zip_with restore_segment R outs)
    ++ [Save (_applied s ∖ list_to_set (ids_with Restored R outs));
        Log ("── Done: " +:+ pretty (length (filter (λ o, o = Restored) outs)) +:+ "/"
             +:+ pretty (length R) +:+ " restored ──────────────") THeading;
        SetBusy false].
Proof.
  intros HR outs. rewrite restore_worker_trace by done. cbn [app]. fold outs.
  by rewrite ids_with_length by (by apply restore_outcomes_length).
Qed.

Lemma apply_outcomes_counts (p : bool) R : ∀ m : Sys,
  let outs := apply_outcomes run_powershell p R m in
  length (filter (λ t, permitted p t = false) R)
  = length (filter (λ o, o = SkippedPrivilege) outs) ∧
  length R = length (filter (λ o, o = Applied) outs)
             + length (filter (λ o, o = SkippedPrivilege) outs)
             + length (filter is_failed outs).
Proof.
  unfold apply_outcomes.
  induction R as [|t R IH]; intros m; [done|].
  cbn [outcomes]. rewrite (filter_cons (λ t, permitted p t = false)).
  destruct (permitted p t) eqn:Hgate.
  - destruct (run_powershell (apply_cmd t) m) as [[ok output] m'].
    destruct (IH m') as [IH1 IH2]. cbn zeta in *.
    rewrite !filter_cons. destruct ok; repeat case_decide; try done;
      cbn [length is_failed] in *; try tauto; split; lia.
  - destruct (IH m) as [IH1 IH2]. cbn zeta in *.
    rewrite !filter_cons. repeat case_decide; try done;
      cbn [length is_failed] in *; try tauto; split; lia.
Qed.

(** X10: the summary line of an apply batch reports the numbers of
    tweaks recorded [Applied], [SkippedPrivilege] and [Failed]; the three
    add up to the number requested. *)
Theorem apply_summary_counts_outcomes R s :
  let outs := apply_outcomes run_powershell (_admin s) R (machine s) in
  let n_ok := length (filter (λ o, o = Applied) outs) in
  let n_skip := length (filter (λ o, o = SkippedPrivilege) outs) in
  let n_err := length (filter is_failed outs) in
  Log (summary_line (Z.of_nat n_ok) (Z.of_nat n_skip) (Z.of_nat n_err)) THeading
    ∈ (_apply_worker run_powershell now R s).2 ∧
  n_ok + n_skip + n_err = length R.
Proof.
  intros outs n_ok n_skip n_err.
  destruct (apply_outcomes_counts (_admin s) R (machine s)) as [Hskip Hsum].
  fold outs in Hskip, Hsum. fold n_skip in Hskip, Hsum. fold n_ok n_err in Hsum.
  split; [|lia].
  assert (Hline : apply_summary R (ids_with Applied R outs)
                    (name <$> filter (λ t, permitted (_admin s) t = false) R)
                  = summary_line (Z.of_nat n_ok) (Z.of_nat n_skip) (Z.of_nat n_err)).
  { unfold apply_summary, summary_line. cbn zeta.
    rewrite ids_with_length by (by apply apply_outcomes_length).
    rewrite length_fmap, Hskip. fold n_ok n_skip.
    by replace (Z.of_nat (length R) - Z.of_nat n_ok - Z.of_nat n_skip)%Z
      with (Z.of_nat n_err) by lia. }
  rewrite apply_worker_trace. fold outs. rewrite <- Hline.
  do 2 apply list_elem_of_further. apply elem_of_app. right.
  apply list_elem_of_further. unfold apply_epilogue. apply list_elem_of_here.
Qed.

Lemma apply_segments_quiet R : ∀ outs : list outcome,
  busy_changes (concat (zip_with apply_segment R outs)) = [] ∧
  warnings (concat (zip_with apply_segment R outs)) = [].
Proof.
  unfold busy_changes, warnings.
  induction R as [|t R IH]; intros [|o outs]; try done.
  cbn [zip_with concat]. rewrite !omap_app. destruct (IH outs) as [-> ->].
  by destruct o.
Qed.

Lemma restore_segments_quiet R : ∀ outs : list outcome,
  busy_changes (concat (zip_with restore_segment R outs)) = [] ∧
  warnings (concat (zip_with restore_segment R outs)) = [].
Proof.
  unfold busy_changes, warnings.
  induction R as [|t R IH]; intros [|o outs]; try done.
  cbn [zip_with concat]. rewrite !omap_app. destruct (IH outs) as [-> ->].
  unfold restore_segment. by destruct o, (restore_cmd t).
Qed.

(** X11: a batch switches the window to busy once, before anything else,
    and back once, after everything else. *)
Theorem batch_is_bracketed_by_busy R s :
  (let tr := (_apply_worker run_powershell now R s).2 in
   busy_changes tr = [true; false] ∧
   head tr = Some (SetBusy true) ∧ last tr = Some (SetBusy false)) ∧
  (Forall (λ t, is_Some (restore_cmd t)) R →
   let tr := (_restore_worker run_powershell now R s).2 in
   busy_changes tr = [true; false] ∧
   head tr = Some (SetBusy true) ∧ last tr = Some (SetBusy false)).
Proof.
  split.
  - intros tr. subst tr. rewrite apply_worker_trace.
    split; [|split; [done|]].
    + unfold busy_changes. cbn [omap list_omap]. rewrite omap_app.
      destruct (apply_segments_quiet R
        (apply_outcomes run_powershell (_admin s) R (machine s))) as [Hq _].
      unfold busy_changes in Hq. rewrite Hq. unfold apply_epilogue.
      by destruct (name <$> filter _ R).
    + unfold apply_epilogue. rewrite !app_comm_cons, !app_assoc.
      apply last_snoc.
  - intros HR tr. subst tr. rewrite restore_worker_trace by done.
    split; [|split; [done|]].
    + unfold busy_changes. cbn [omap list_omap]. rewrite omap_app.
      destruct (restore_segments_quiet R
        (restore_outcomes run_powershell (_admin s) R (machine s))) as [Hq _].
      unfold busy_changes in Hq. by rewrite Hq.
    + rewrite !app_comm_cons.
      change [?a; ?b; ?c] with ([a; b] ++ [c]). rewrite app_assoc. apply last_snoc.
Qed.

(** X12: the warning dialog of an apply batch is shown exactly when some
    tweak was skipped for privilege, once, and lists the names of the
    skipped tweaks in the order requested. *)
Theorem skip_warning_lists_skipped R s :
  let skipped := name <$> filter (λ t, permitted (_admin s) t = false) R in
  warnings (_apply_worker run_powershell now R s).2
  = match skipped with
    | [] => []
    | _ :: _ => [skipped_warning skipped]
    end.
Proof.
  intros skipped. rewrite apply_worker_trace.
  unfold warnings. cbn [omap list_omap]. rewrite omap_app.
  destruct (apply_segments_quiet R
    (apply_outcomes run_powershell (_admin s) R (machine s))) as [_ Hq].
  unfold warnings in Hq. rewrite Hq. unfold apply_epilogue. fold skipped.
  by destruct skipped.
Qed.

(** X13: an apply batch only ever adds ids of requested tweaks to the
    applied set and a restore batch only ever removes ids of the tweaks
    given; either leaves the privilege flag, the check boxes and the
    pending dialog answers alone and uses up one write of the file. *)
Theorem batch_changes_only_its_ids R s :
  (let s' := (_apply_worker run_powershell now R s).1.2 in
   _applied s ⊆ _applied s' ∧
   _applied s' ⊆ _applied s ∪ list_to_set (id <$> R) ∧
   _admin s' = _admin s ∧ _vars s' = _vars s ∧ answers s' = answers s ∧
   io s' = tail (io s)) ∧
  (Forall (λ t, is_Some (restore_cmd t)) R →
   let s' := (_restore_worker run_powershell now R s).1.2 in
   _applied s' ⊆ _applied s ∧
   _applied s ∖ list_to_set (id <$> R) ⊆ _applied s' ∧
   _admin s' = _admin s ∧ _vars s' = _vars s ∧ answers s' = answers s ∧
   io s' = tail (io s)).
Proof.
  split.
  - intros s'. destruct (apply_worker_facts run_powershell now R s) as (_ & [m Hst] & _).
    subst s'. rewrite Hst. cbn [_applied _admin _vars answers io].
    split; [apply union_subseteq_l|]. split; [|done].
    apply union_mono_l. intros i Hi%elem_of_list_to_set. apply elem_of_list_to_set.
    destruct (decide (i ∈ (id <$> R))) as [|Hout]; [done|].
    by apply (ids_with_outside Applied R
                (apply_outcomes run_powershell (_admin s) R (machine s))) in Hout.
  - intros HR s'.
    destruct (restore_worker_facts run_powershell now R s HR) as (_ & [m Hst] & _).
    subst s'. rewrite Hst. cbn [_applied _admin _vars answers io].
    split; [apply subseteq_difference_l; done|]. split; [|done].
    intros i [Hi Hout]%elem_of_difference. apply elem_of_difference. split; [done|].
    rewrite elem_of_list_to_set in *. by apply ids_with_outside.
Qed.





Lemma outcomes_all_succeed (success : outcome) (action : tweak → option string)
    (p : bool) R :
  Forall (λ t, permitted p t = true) R →
  Forall (λ t, ∃ c, action t = Some c ∧ ∀ m, (run_powershell c m).1.1 = true) R →
  ∀ m : Sys, outcomes run_powershell success action p R m = replicate (length R) success.
Proof.
  intros Hp Hok. induction Hok as [|t R (c & Hc & Hrun) _ IH]; intros m; [done|].
  apply Forall_cons_1 in Hp as [Ht Hp]. cbn [outcomes]. rewrite Ht, Hc.
  specialize (Hrun m). destruct (run_powershell c m) as [[ok output] m'].
  cbn [fst] in Hrun. subst ok. cbn [length replicate]. f_equal. by apply IH.
Qed.

Lemma ids_with_replicate o R : ids_with o R (replicate (length R) o) = id <$> R.
Proof.
  induction R as [|t R IH]; [done|].
  cbn [length replicate]. rewrite ids_with_cons, IH. by case_decide.
Qed.

(** X15: when the privilege gate lets every requested tweak through and
    each of their apply commands succeeds, every record is [Applied], the
    ids of all requested tweaks are in the applied set afterwards, and no
    warning is shown. *)
Theorem apply_all_succeed R s :
  Forall (λ t, permitted (_admin s) t = true) R →
  Forall (λ t, ∀ m, (run_powershell (apply_cmd t) m).1.1 = true) R →
  apply_outcomes run_powershell (_admin s) R (machine s) = replicate (length R) Applied ∧
  _applied (_apply_worker run_powershell now R s).1.2
  = _applied s ∪ list_to_set (id <$> R) ∧
  execs (_apply_worker run_powershell now R s).2 = apply_cmd <$> R ∧
  warnings (_apply_worker run_powershell now R s).2 = [].
Proof.
  intros Hp Hok.
  assert (Houts : apply_outcomes run_powershell (_admin s) R (machine s)
                  = replicate (length R) Applied).
  { apply outcomes_all_succeed; [done|].
    eapply Forall_impl; [exact Hok|]. intros t Ht. by exists (apply_cmd t). }
  assert (Hnone : filter (λ t, permitted (_admin s) t = false) R = []).
  { clear Hok Houts. induction Hp as [|t R Ht _ IH]; [done|].
    rewrite filter_cons_False; [done|]. by rewrite Ht. }
  assert (Hall : filter (λ t, permitted (_admin s) t = true) R = R).
  { clear Hok Houts Hnone. induction Hp as [|t R Ht _ IH]; [done|].
    rewrite filter_cons_True by done. by rewrite IH. }
  destruct (apply_worker_facts run_powershell now R s) as (_ & [m Hst] & _ & _ & Hexecs).
  split; [done|]. split; [|split].
  - rewrite Hst. cbn [_applied]. by rewrite Houts, ids_with_replicate.
  - by rewrite Hexecs, Hall.
  - rewrite apply_worker_trace. unfold warnings. cbn [omap list_omap].
    rewrite omap_app.
    destruct (apply_segments_quiet R
      (apply_outcomes run_powershell (_admin s) R (machine s))) as [_ Hq].
    unfold warnings in Hq. rewrite Hq. unfold apply_epilogue. by rewrite Hnone.
Qed.

(** ** The two buttons *)

(** X16: when every registry id has a check box, [_on_apply] returns
    normally and the executor is called with the apply commands of the
    ticked tweaks that the privilege gate lets through, in registry order,
    and of no other; the applied set gains the ids recorded [Applied]
    among the ticked tweaks.  When a registry id has no check box,
    [_on_apply] raises a [KeyError] and does nothing else. *)
Theorem on_apply_runs_the_ticked_tweaks (TWEAKS : list tweak) s :
  (Forall (λ t, is_Some (_vars s !! id t)) TWEAKS →
   let run := _on_apply run_powershell now TWEAKS s in
   let selected := filter (checked (_vars s)) TWEAKS in
   run.1.1 = Returns tt ∧
   execs run.2 = apply_cmd <$> filter (λ t, permitted (_admin s) t = true) selected ∧
   _applied run.1.2
   = _applied s ∪ list_to_set
       (ids_with Applied selected
          (apply_outcomes run_powershell (_admin s) selected (machine s)))) ∧
  (¬ Forall (λ t, is_Some (_vars s !! id t)) TWEAKS →
   _on_apply run_powershell now TWEAKS s = (Raises KeyError, s, [])).
Proof.
  split.
  - intros Hall run selected. subst run.
    unfold _on_apply, mbind, M_bind, bind, gets, lift.
    rewrite select_all_present by done. fold selected.
    destruct selected as [|t sel] eqn:Hsel.
    + split; [done|]. split; [done|].
      cbn [fst snd]. change (ids_with Applied [] _) with (@nil string).
      by rewrite list_to_set_nil, union_empty_r_L.
    + destruct (apply_worker_facts run_powershell now (t :: sel) s)
        as (Hret & [m Hst] & _ & _ & Hexecs).
      unfold spawn.
      destruct (_apply_worker run_powershell now (t :: sel) s) as [[r s'] tr].
      cbn [fst snd app] in *. subst s'.
      split; [done|]. split; [by rewrite execs_cons|done].
  - intros Hnot. unfold _on_apply, mbind, M_bind, bind, gets, lift.
    by rewrite select_KeyError.
Qed.

Lemma filter_none {A} (P : A → Prop) `{!∀ x, Decision (P x)} (l : list A) :
  Forall (λ x, ¬ P x) l → filter P l = [].
Proof.
  induction 1 as [|x l Hx _ IH]; [done|]. by rewrite filter_cons_False.
Qed.

(** X17: when no registry tweak has its id in the applied set -- the set
    is empty or holds only ids the registry does not know -- [_on_restore]
    shows its message and returns: no question, no executor call, no save,
    the state as it was. *)
Theorem on_restore_with_nothing_applied (TWEAKS : list tweak) s :
  Forall (λ t, id t ∉ _applied s) TWEAKS →
  _on_restore run_powershell now TWEAKS s
  = (Returns tt, s,
     [ShowInfo ("No previously applied tweaks were found to restore." +:+ nl +:+ nl
        +:+ "Arc Booster tracks tweaks applied in this and previous sessions.")]).
Proof.
  intros Hnone. unfold _on_restore, mbind, M_bind, bind, gets.
  unfold restorable, irreversible.
  rewrite !filter_none; [done|..];
    (eapply Forall_impl; [exact Hnone|]; intros t Ht [? _]; done).
Qed.

Lemma on_restore_declined_run (TWEAKS : list tweak) s :
  restorable (_applied s) TWEAKS ++ irreversible (_applied s) TWEAKS ≠ [] →
  head (answers s) ≠ Some true →
  _on_restore run_powershell now TWEAKS s
  = (Returns tt, set_answers (tail (answers s)) s,
     [AskYesNo (restore_prompt (restorable (_applied s) TWEAKS)
                               (irreversible (_applied s) TWEAKS))]).
Proof.
  intros Hne Hno.
  assert (Hans : default false (head (answers s)) = false).
  { destruct (head (answers s)) as [[]|]; done. }
  unfold _on_restore, mbind, M_bind, bind, gets, askyesno.
  destruct (restorable (_applied s) TWEAKS), (irreversible (_applied s) TWEAKS);
    try done; by rewrite Hans.
Qed.

Lemma on_restore_confirmed_run (TWEAKS : list tweak) s :
  restorable (_applied s) TWEAKS ++ irreversible (_applied s) TWEAKS ≠ [] →
  head (answers s) = Some true →
  let worker := _restore_worker run_powershell now (restorable (_applied s) TWEAKS)
                  (set_answers (tail (answers s)) s) in
  _on_restore run_powershell now TWEAKS s
  = (Returns tt, worker.1.2,
     AskYesNo (restore_prompt (restorable (_applied s) TWEAKS)
                              (irreversible (_applied s) TWEAKS))
     :: ThreadStart :: worker.2).
Proof.
  intros Hne Hyes worker. subst worker.
  unfold _on_restore, mbind, M_bind, bind, gets, askyesno, spawn.
  destruct (restorable (_applied s) TWEAKS), (irreversible (_applied s) TWEAKS);
    try done; rewrite Hyes; cbv [default from_option Datatypes.id];
    by destruct (_restore_worker _ _ _ _) as [[? ?] ?].
Qed.

Lemma on_restore_nothing_run (TWEAKS : list tweak) s :
  restorable (_applied s) TWEAKS ++ irreversible (_applied s) TWEAKS = [] →
  _on_restore run_powershell now TWEAKS s
  = (Returns tt, s,
     [ShowInfo ("No previously applied tweaks were found to restore." +:+ nl +:+ nl
        +:+ "Arc Booster tracks tweaks applied in this and previous sessions.")]).
Proof.
  intros [Hr Hi]%app_eq_nil.
  unfold _on_restore, mbind, M_bind, bind, gets. by rewrite Hr, Hi.
Qed.

Lemma restorable_has_cmd (applied : gset string) (TWEAKS : list tweak) :
  Forall (λ t, is_Some (restore_cmd t)) (restorable applied TWEAKS).
Proof.
  apply Forall_forall. intros t [[_ Hcmd] _]%list_elem_of_filter.
  by apply not_eq_None_Some.
Qed.

(** The applied set [_on_restore] leaves. *)
Lemma on_restore_applied_set (TWEAKS : list tweak) s :
  let R := restorable (_applied s) TWEAKS in
  let s' := (_on_restore run_powershell now TWEAKS s).1.2 in
  (_applied s' = _applied s ∧
   (R ++ irreversible (_applied s) TWEAKS = [] ∨ head (answers s) ≠ Some true)) ∨
  (_applied s'
   = _applied s ∖ list_to_set
       (ids_with Restored R (restore_outcomes run_powershell (_admin s) R (machine s))) ∧
   head (answers s) = Some true).
Proof.
  intros R s'. subst s'.
  destruct (decide (R ++ irreversible (_applied s) TWEAKS = [])) as [Hnil|Hne].
  { left. rewrite on_restore_nothing_run by done. eauto. }
  destruct (decide (head (answers s) = Some true)) as [Hyes|Hno].
  - right. rewrite on_restore_confirmed_run by done. cbn [fst snd].
    destruct (restore_worker_facts run_powershell now R
                (set_answers (tail (answers s)) s) (restorable_has_cmd _ _))
      as (_ & [m Hst] & _).
    fold R. rewrite Hst. done.
  - left. rewrite on_restore_declined_run by done. eauto.
Qed.

(** X18: when there is something to restore or to report and the user
    does not confirm, [_on_restore] asks its question and does nothing
    more: no worker, no executor call, no save; the applied set and the
    file are as they were. *)
Theorem on_restore_declined (TWEAKS : list tweak) s :
  Exists (λ t, id t ∈ _applied s) TWEAKS →
  head (answers s) ≠ Some true →
  _on_restore run_powershell now TWEAKS s
  = (Returns tt, set_answers (tail (answers s)) s,
     [AskYesNo (restore_prompt (restorable (_applied s) TWEAKS)
                               (irreversible (_applied s) TWEAKS))]).
Proof.
  intros Hsome Hno. apply on_restore_declined_run; [|done].
  apply Exists_exists in Hsome as (t & Ht & Hin). intros Hnil.
  assert (Hmem : t ∈ filter (λ t, id t ∈ _applied s) TWEAKS)
    by (by apply list_elem_of_filter).
  rewrite <- plan_covers, Hnil in Hmem. by apply elem_of_nil in Hmem.
Qed.

(** X19: [_on_restore] never removes from the applied set an id for
    which the registry has no tweak with a restore command: the ids of
    one-way tweaks and the ids the registry does not know stay, whatever
    the user answers and whatever the commands do. *)
Theorem on_restore_keeps_one_way_and_unknown_ids (TWEAKS : list tweak) s (i : string) :
  i ∈ _applied s →
  Forall (λ t, id t = i → restore_cmd t = None) TWEAKS →
  i ∈ _applied (_on_restore run_powershell now TWEAKS s).1.2.
Proof.
  intros Hin Hone.
  destruct (on_restore_applied_set TWEAKS s) as [[-> _]|[-> _]]; [done|].
  apply elem_of_difference. split; [done|].
  rewrite elem_of_list_to_set.
  intros (k & t & Ht & _ & Hid)%elem_of_ids_with.
  apply list_elem_of_lookup_2, list_elem_of_filter in Ht as [[_ Hcmd] Ht].
  rewrite Forall_forall in Hone. by apply Hcmd, Hone.
Qed.

(** X20: when the user confirms, the privilege gate lets every
    restorable tweak through and each of their restore commands succeeds,
    [_on_restore] removes the ids of all restorable tweaks from the
    applied set, and nothing restorable is left: a second restore would
    find only one-way tweaks, if any. *)
Theorem confirmed_restore_leaves_nothing_restorable (TWEAKS : list tweak) s :
  head (answers s) = Some true →
  Forall (λ t, permitted (_admin s) t = true) (restorable (_applied s) TWEAKS) →
  Forall (λ t, ∀ c m, restore_cmd t = Some c → (run_powershell c m).1.1 = true)
    (restorable (_applied s) TWEAKS) →
  let s' := (_on_restore run_powershell now TWEAKS s).1.2 in
  _applied s' = _applied s ∖ list_to_set (id <$> restorable (_applied s) TWEAKS) ∧
  restorable (_applied s') TWEAKS = [].
Proof.
  intros Hyes Hp Hok s'.
  assert (Hset : _applied s'
                 = _applied s ∖ list_to_set (id <$> restorable (_applied s) TWEAKS)).
  { subst s'. destruct (on_restore_applied_set TWEAKS s) as [[-> [Hnil|Hno]]|[-> _]];
      [|done|].
    - apply app_eq_nil in Hnil as [-> _]. cbn [fmap list_fmap].
      by rewrite list_to_set_nil, difference_empty_L.
    - unfold restore_outcomes.
      rewrite (outcomes_all_succeed Restored restore_cmd); [|done|].
      + by rewrite ids_with_replicate.
      + pose proof (restorable_has_cmd (_applied s) TWEAKS) as Hcmd.
        rewrite Forall_forall in Hok, Hcmd. apply Forall_forall. intros t Ht.
        destruct (Hcmd t Ht) as [c Hc]. exists c. split; [done|].
        intros m. by apply (Hok t Ht). }
  split; [done|]. rewrite Hset. apply filter_none, Forall_forall.
  intros t Ht [[Hin Hout]%elem_of_difference Hcmd]. apply Hout.
  apply elem_of_list_to_set, list_elem_of_fmap. exists t. split; [done|].
  by apply list_elem_of_filter.
Qed.

(** X21: applying and then restoring undoes the apply.  With privilege,
    for requested tweaks that are in the registry and reversible, when
    their apply commands and the restore commands of the registry
    succeed: after the apply batch and a restore batch over what is then
    restorable, no requested id is in the applied set, and the set holds
    nothing it did not hold before. *)
Theorem apply_then_restore_undoes (TWEAKS : list tweak) R s :
  _admin s = true →
  R ⊆ TWEAKS →
  Forall (λ t, is_Some (restore_cmd t)) R →
  Forall (λ t, ∀ m, (run_powershell (apply_cmd t) m).1.1 = true) R →
  Forall (λ t, ∀ c m, restore_cmd t = Some c → (run_powershell c m).1.1 = true) TWEAKS →
  let s1 := (_apply_worker run_powershell now R s).1.2 in
  let s2 := (_restore_worker run_powershell now (restorable (_applied s1) TWEAKS) s1).1.2 in
  Forall (λ t, id t ∈ _applied s1) R ∧
  Forall (λ t, id t ∉ _applied s2) R ∧
  _applied s2 ⊆ _applied s.
Proof.
  intros Hadmin Hsub Hrev Hok Hrestore s1 s2.
  assert (Hgate : ∀ l : list tweak, Forall (λ t, permitted true t = true) l).
  { intros l. apply Forall_forall. intros t _. unfold permitted.
    by rewrite andb_false_r. }
  destruct (apply_worker_facts run_powershell now R s) as (_ & [m1 Hs1] & _).
  fold s1 in Hs1. rewrite Hadmin in Hs1.
  unfold apply_outcomes in Hs1.
  rewrite (outcomes_all_succeed Applied (λ t, Some (apply_cmd t))) in Hs1;
    [|done|eapply Forall_impl; [exact Hok|]; intros t Ht; by exists (apply_cmd t)].
  rewrite ids_with_replicate in Hs1.
  assert (H1 : _applied s1 = _applied s ∪ list_to_set (id <$> R)) by (by rewrite Hs1).
  assert (Hadmin1 : _admin s1 = true) by (by rewrite Hs1).
  set (Q := restorable (_applied s1) TWEAKS) in *.
  destruct (restore_worker_facts run_powershell now Q s1 (restorable_has_cmd _ _))
    as (_ & [m2 Hs2] & _).
  fold s2 in Hs2. rewrite Hadmin1 in Hs2. unfold restore_outcomes in Hs2.
  rewrite (outcomes_all_succeed Restored restore_cmd) in Hs2; [|done|].
  2:{ pose proof (restorable_has_cmd (_applied s1) TWEAKS) as Hcmd. fold Q in Hcmd.
      rewrite Forall_forall in Hcmd, Hrestore. apply Forall_forall. intros t Ht.
      destruct (Hcmd t Ht) as [c Hc]. exists c. split; [done|]. intros m.
      apply (Hrestore t); [|done].
      by apply list_elem_of_filter in Ht as [_ Ht]. }
  rewrite ids_with_replicate in Hs2.
  assert (H2 : _applied s2 = _applied s1 ∖ list_to_set (id <$> Q)) by (by rewrite Hs2).
  assert (Hin1 : ∀ t, t ∈ R → id t ∈ _applied s1).
  { intros t Ht. rewrite H1. apply elem_of_union. right.
    apply elem_of_list_to_set, list_elem_of_fmap. by exists t. }
  assert (HinQ : ∀ t, t ∈ R → id t ∈ (id <$> Q)).
  { intros t Ht. apply list_elem_of_fmap. exists t. split; [done|].
    apply list_elem_of_filter. split; [|by apply Hsub].
    split; [by apply Hin1|]. rewrite Forall_forall in Hrev.
    by apply not_eq_None_Some, Hrev. }
  split; [by apply Forall_forall|]. split.
  - apply Forall_forall. intros t Ht. rewrite H2, elem_of_difference, elem_of_list_to_set.
    intros [_ Hout]. by apply Hout, HinQ.
  - intros i. rewrite H2, H1, elem_of_difference, elem_of_union, !elem_of_list_to_set.
    intros [[Hi|Hi] Hout]; [done|]. exfalso. apply Hout.
    apply list_elem_of_fmap in Hi as (t & -> & Ht). by apply HinQ.
Qed.
End batches.

(** ** The further theorems at concrete inputs *)

Lemma load_empty_when_absent_or_garbled_witness :
  assoc "applied" [("last_modified", JStr "2024-05-01T12:00:00")] = None ∧
  load_applied_tweaks
    (File (Json (JDict [("last_modified", JStr "2024-05-01T12:00:00")])))
  = Returns ∅.
Proof.
  split; [reflexivity|].
  destruct load_empty_when_absent_or_garbled as (_ & _ & _ & Hobj).
  by apply Hobj.
Defined.

Lemma load_list_of_strings_witness :
  assoc "applied" [("note", JNull); ("applied", JList (JStr <$> ["b"; "a"; "b"]))]
  = Some (JList (JStr <$> ["b"; "a"; "b"])) ∧
  load_applied_tweaks
    (File (Json (JDict [("note", JNull); ("applied", JList (JStr <$> ["b"; "a"; "b"]))])))
  = Returns (list_to_set (KStr <$> ["b"; "a"; "b"])).
Proof.
  split; [reflexivity|]. by apply load_list_of_strings.
Defined.

Lemma cards_grouped_by_category_witness :
  Forall (λ t, category t ∈ CATEGORIES) Scenario.registry ∧
  ∃ by_cat, by_cat_fill Scenario.registry by_cat_init = Returns by_cat ∧
    cards by_cat = [Scenario.A; Scenario.B; Scenario.D; Scenario.C].
Proof.
  assert (Hall : Forall (λ t, category t ∈ CATEGORIES) Scenario.registry)
    by compute_done.
  split; [exact Hall|].
  destruct (cards_grouped_by_category Scenario.registry ∅) as [Hok _].
  destruct (Hok Hall) as (by_cat & Hfill & Hcards & _).
  exists by_cat. split; [exact Hfill|]. rewrite Hcards. reflexivity.
Defined.

Lemma fresh_window_selects_nothing_witness :
  Forall (λ t, category t ∈ CATEGORIES) Scenario.registry ∧
  ∃ vars, build_vars Scenario.registry ∅ = Returns vars ∧
    select vars Scenario.registry = Returns [].
Proof.
  assert (Hall : Forall (λ t, category t ∈ CATEGORIES) Scenario.registry)
    by compute_done.
  split; [exact Hall|].
  destruct (fresh_window_selects_nothing Scenario.registry Hall) as (vars & Hb & _ & Hsel).
  by exists vars.
Defined.

Lemma toggle_all_selects_all_or_none_witness :
  Forall (λ t, is_Some (_vars (Scenario.start true ∅ Scenario.unchecked []) !! id t))
    Scenario.registry ∧
  select (_vars (_toggle_all true (Scenario.start true ∅ Scenario.unchecked [])).1.2)
    Scenario.registry
  = Returns Scenario.registry.
Proof.
  assert (Hall : Forall
    (λ t, is_Some (_vars (Scenario.start true ∅ Scenario.unchecked []) !! id t))
    Scenario.registry) by compute_done.
  split; [exact Hall|].
  by destruct (toggle_all_selects_all_or_none true Scenario.registry
                 (Scenario.start true ∅ Scenario.unchecked []) Hall) as (_ & _ & Hsel).
Defined.

Lemma restore_trace_tweak_by_tweak_witness :
  Forall (λ t, is_Some (restore_cmd t)) [Scenario.B; Scenario.D] ∧
  (_restore_worker Scenario.run_powershell Scenario.now [Scenario.B; Scenario.D]
     (Scenario.start false {["B"; "D"]} ∅ [])).2
  = [SetBusy true;
     Log ("── Restoring " +:+ pretty 2 +:+ " tweak(s) ─────────────────") THeading;
     Log "⚠  SKIP  Tweak B  (requires Administrator)" TWarn;
     Log "Restoring: Tweak D …" TInfo;
     Exec "exit 1";
     Log "✘  Tweak D  — denied" TErr;
     Save {["B"; "D"]};
     Log ("── Done: " +:+ pretty 0 +:+ "/" +:+ pretty 2
          +:+ " restored ──────────────") THeading;
     SetBusy false].
Proof.
  assert (HR : Forall (λ t, is_Some (restore_cmd t)) [Scenario.B; Scenario.D]).
  { repeat constructor; by eexists. }
  split; [exact HR|].
  rewrite (restore_trace_tweak_by_tweak Scenario.run_powershell Scenario.now
             [Scenario.B; Scenario.D] (Scenario.start false {["B"; "D"]} ∅ []) HR).
  vm_compute. reflexivity.
Defined.

Lemma batch_is_bracketed_by_busy_witness :
  Forall (λ t, is_Some (restore_cmd t)) [Scenario.A; Scenario.D] ∧
  busy_changes (_restore_worker Scenario.run_powershell Scenario.now
                  [Scenario.A; Scenario.D]
                  (Scenario.start true {["A"; "D"]} ∅ [])).2
  = [true; false].
Proof.
  assert (HR : Forall (λ t, is_Some (restore_cmd t)) [Scenario.A; Scenario.D]).
  { repeat constructor; by eexists. }
  split; [exact HR|].
  destruct (batch_is_bracketed_by_busy Scenario.run_powershell Scenario.now
              [Scenario.A; Scenario.D] (Scenario.start true {["A"; "D"]} ∅ []))
    as [_ Hrestore].
  by destruct (Hrestore HR) as [Hbusy _].
Defined.

Lemma batch_changes_only_its_ids_witness :
  Forall (λ t, is_Some (restore_cmd t)) [Scenario.A; Scenario.D] ∧
  _applied (_restore_worker Scenario.run_powershell Scenario.now
              [Scenario.A; Scenario.D]
              (Scenario.start true {["A"; "C"; "D"]} ∅ [])).1.2
  ⊆ {["A"; "C"; "D"]}.
Proof.
  assert (HR : Forall (λ t, is_Some (restore_cmd t)) [Scenario.A; Scenario.D]).
  { repeat constructor; by eexists. }
  split; [exact HR|].
  destruct (batch_changes_only_its_ids Scenario.run_powershell Scenario.now
              [Scenario.A; Scenario.D] (Scenario.start true {["A"; "C"; "D"]} ∅ []))
    as [_ Hrestore].
  by destruct (Hrestore HR) as [Hsub _].
Defined.


Lemma apply_all_succeed_witness :
  Forall (λ t, permitted true t = true) [Scenario.A; Scenario.B; Scenario.C] ∧
  Forall (λ t, ∀ m, (Scenario.run_powershell (apply_cmd t) m).1.1 = true)
    [Scenario.A; Scenario.B; Scenario.C] ∧
  _applied (_apply_worker Scenario.run_powershell Scenario.now
              [Scenario.A; Scenario.B; Scenario.C] (Scenario.start true ∅ ∅ [])).1.2
  = ∅ ∪ list_to_set (id <$> [Scenario.A; Scenario.B; Scenario.C]).
Proof.
  assert (Hp : Forall (λ t, permitted true t = true) [Scenario.A; Scenario.B; Scenario.C])
    by (repeat constructor).
  assert (Hok : Forall (λ t, ∀ m, (Scenario.run_powershell (apply_cmd t) m).1.1 = true)
                  [Scenario.A; Scenario.B; Scenario.C])
    by (repeat constructor).
  split; [exact Hp|]. split; [exact Hok|].
  by destruct (apply_all_succeed Scenario.run_powershell Scenario.now
                 [Scenario.A; Scenario.B; Scenario.C] (Scenario.start true ∅ ∅ []) Hp Hok)
    as (_ & Hset & _).
Defined.

Lemma on_apply_runs_the_ticked_tweaks_witness :
  Forall (λ t, is_Some (_vars (Scenario.start false ∅
                                 (<["A" := true]> (<["B" := true]> Scenario.unchecked)) [])
                        !! id t)) Scenario.registry ∧
  execs (_on_apply Scenario.run_powershell Scenario.now Scenario.registry
           (Scenario.start false ∅
              (<["A" := true]> (<["B" := true]> Scenario.unchecked)) [])).2
  = ["apply A"].
Proof.
  assert (Hall : Forall
    (λ t, is_Some (_vars (Scenario.start false ∅
                            (<["A" := true]> (<["B" := true]> Scenario.unchecked)) [])
                   !! id t)) Scenario.registry) by compute_done.
  split; [exact Hall|].
  destruct (on_apply_runs_the_ticked_tweaks Scenario.run_powershell Scenario.now
              Scenario.registry
              (Scenario.start false ∅
                 (<["A" := true]> (<["B" := true]> Scenario.unchecked)) []))
    as [Hok _].
  destruct (Hok Hall) as (_ & Hexecs & _). rewrite Hexecs. vm_compute. reflexivity.
Defined.

Lemma on_restore_with_nothing_applied_witness :
  Forall (λ t, id t ∉ _applied (Scenario.start true {["Z"]} ∅ [])) Scenario.registry ∧
  (_on_restore Scenario.run_powershell Scenario.now Scenario.registry
     (Scenario.start true {["Z"]} ∅ [])).1.2
  = Scenario.start true {["Z"]} ∅ [].
Proof.
  assert (Hnone : Forall (λ t, id t ∉ _applied (Scenario.start true {["Z"]} ∅ []))
                    Scenario.registry).
  { repeat constructor; cbn; set_solver. }
  split; [exact Hnone|].
  by rewrite (on_restore_with_nothing_applied Scenario.run_powershell Scenario.now
                Scenario.registry (Scenario.start true {["Z"]} ∅ []) Hnone).
Defined.

Lemma on_restore_declined_witness :
  Exists (λ t, id t ∈ _applied (set_answers [false] (Scenario.start true {["A"]} ∅ []))) Scenario.registry ∧
  head (answers (set_answers [false] (Scenario.start true {["A"]} ∅ []))) ≠ Some true ∧
  execs (_on_restore Scenario.run_powershell Scenario.now Scenario.registry
           (set_answers [false] (Scenario.start true {["A"]} ∅ []))).2 = [].
Proof.
  assert (Hsome : Exists (λ t, id t ∈ _applied (set_answers [false] (Scenario.start true {["A"]} ∅ [])))
                    Scenario.registry).
  { apply Exists_cons_hd. cbn. set_solver. }
  assert (Hno : head (answers (set_answers [false] (Scenario.start true {["A"]} ∅ []))) ≠ Some true)
    by discriminate.
  split; [exact Hsome|]. split; [exact Hno|].
  by rewrite (on_restore_declined Scenario.run_powershell Scenario.now
                Scenario.registry (set_answers [false] (Scenario.start true {["A"]} ∅ [])) Hsome Hno).
Defined.

Lemma on_restore_keeps_one_way_and_unknown_ids_witness :
  "C" ∈ _applied (Scenario.start true {["A"; "C"]} ∅ []) ∧
  Forall (λ t, id t = "C" → restore_cmd t = None) Scenario.registry ∧
  "C" ∈ _applied (_on_restore Scenario.run_powershell Scenario.now Scenario.registry
                    (Scenario.start true {["A"; "C"]} ∅ [])).1.2.
Proof.
  assert (Hin : "C" ∈ _applied (Scenario.start true {["A"; "C"]} ∅ []))
    by (cbn; set_solver).
  assert (Hone : Forall (λ t, id t = "C" → restore_cmd t = None) Scenario.registry).
  { repeat constructor; cbn; done. }
  split; [exact Hin|]. split; [exact Hone|].
  exact (on_restore_keeps_one_way_and_unknown_ids Scenario.run_powershell Scenario.now
           Scenario.registry (Scenario.start true {["A"; "C"]} ∅ []) "C" Hin Hone).
Defined.

Lemma confirmed_restore_leaves_nothing_restorable_witness :
  head (answers (Scenario.start true {["A"; "C"]} ∅ [])) = Some true ∧
  restorable
    (_applied (_on_restore Scenario.run_powershell Scenario.now [Scenario.A; Scenario.C]
                 (Scenario.start true {["A"; "C"]} ∅ [])).1.2)
    [Scenario.A; Scenario.C]
  = [].
Proof.
  split; [reflexivity|].
  assert (Hp : Forall (λ t, permitted true t = true)
                 (restorable {["A"; "C"]} [Scenario.A; Scenario.C])).
  { apply Forall_forall. intros t _. unfold permitted. by rewrite andb_false_r. }
  assert (Hok : Forall (λ t, ∀ c m, restore_cmd t = Some c →
                                    (Scenario.run_powershell c m).1.1 = true)
                  (restorable {["A"; "C"]} [Scenario.A; Scenario.C])).
  { apply Forall_forall. intros t [_ Ht]%list_elem_of_filter c m Hc.
    apply elem_of_cons in Ht as [->|Ht]; [by injection Hc as <-|].
    apply list_elem_of_singleton in Ht as ->. discriminate. }
  by destruct (confirmed_restore_leaves_nothing_restorable Scenario.run_powershell
                 Scenario.now [Scenario.A; Scenario.C]
                 (Scenario.start true {["A"; "C"]} ∅ []) eq_refl Hp Hok)
    as [_ Hnone].
Defined.

Lemma apply_then_restore_undoes_witness :
  _admin (Scenario.start true {["C"]} ∅ []) = true ∧
  [Scenario.A; Scenario.B] ⊆ Scenario.registry ∧
  Forall (λ t, id t ∉ _applied
            (_restore_worker Scenario.run_powershell Scenario.now
               (restorable
                  (_applied (_apply_worker Scenario.run_powershell Scenario.now
                               [Scenario.A; Scenario.B]
                               (Scenario.start true {["C"]} ∅ [])).1.2)
                  [Scenario.A; Scenario.B; Scenario.C])
               (_apply_worker Scenario.run_powershell Scenario.now
                  [Scenario.A; Scenario.B] (Scenario.start true {["C"]} ∅ [])).1.2).1.2)
    [Scenario.A; Scenario.B].
Proof.
  split; [reflexivity|]. split.
  { intros t Ht. apply elem_of_cons in Ht as [->|Ht]; [apply list_elem_of_here|].
    apply list_elem_of_singleton in Ht as ->.
    apply list_elem_of_further, list_elem_of_here. }
  assert (Hsub : [Scenario.A; Scenario.B] ⊆ [Scenario.A; Scenario.B; Scenario.C]).
  { intros t Ht. apply elem_of_cons in Ht as [->|Ht]; [apply list_elem_of_here|].
    apply list_elem_of_singleton in Ht as ->.
    apply list_elem_of_further, list_elem_of_here. }
  assert (Hrev : Forall (λ t, is_Some (restore_cmd t)) [Scenario.A; Scenario.B]).
  { repeat constructor; by eexists. }
  assert (Hok : Forall (λ t, ∀ m, (Scenario.run_powershell (apply_cmd t) m).1.1 = true)
                  [Scenario.A; Scenario.B]) by (repeat constructor).
  assert (Hrestore : Forall (λ t, ∀ c m, restore_cmd t = Some c →
                                         (Scenario.run_powershell c m).1.1 = true)
                       [Scenario.A; Scenario.B; Scenario.C]).
  { repeat constructor; intros c m [= <-]; reflexivity. }
  by destruct (apply_then_restore_undoes Scenario.run_powershell Scenario.now
                 [Scenario.A; Scenario.B; Scenario.C] [Scenario.A; Scenario.B]
                 (Scenario.start true {["C"]} ∅ []) eq_refl Hsub Hrev Hok Hrestore)
    as (_ & Hgone & _).
Defined.
